(** * Heat-kernel and PWP indirect influences: a shallow embedding

    Source: [algorithms/link_analysis/heatkernel_alg.py] and
    [algorithms/link_analysis/pwp_alg.py].

    Both functions validate the runtime type of the graph, turn an undirected
    graph into a directed one, take the transposed adjacency matrix, apply a
    matrix function built on the matrix exponential, reduce the result along
    both axes, divide each reduction by its own total and return two
    dictionaries keyed by [range(j)]. *)

From Stdlib Require Import QArith Qcanon ZArith List String Lia.
From stdpp Require Import gmap strings list fin_maps.

Local Open Scope Z_scope.
Local Open Scope nat_scope.

(** ** Numbers

    The arrays of the source hold numpy [float64] values.  Rounding is left
    out of the model, and so is overflow: a finite value is an exact rational
    of any size, and the sum, product or quotient of finite values is the
    exact one (the abstract primitives may still return [inf]).  A theorem
    about finite values is therefore a statement in exact arithmetic.  The
    three special values are kept, with the rules numpy's arithmetic follows for them,
    because numpy's division by zero and its invalid operations return
    [inf], [-inf] or [nan] (with a warning) and raise nothing.  Signed zeros
    are not distinguished: the one zero behaves as [+0.0]. *)

Inductive float64 : Type :=
| Fin (q : Qc)
| PInf
| NInf
| NaN.

Declare Scope float_scope.
Delimit Scope float_scope with float.
Bind Scope float_scope with float64.

Definition f0 : float64 := Fin 0%Qc.
Definition f1 : float64 := Fin 1%Qc.

Definition fadd (x y : float64) : float64 :=
  match x, y with
  | NaN, _ | _, NaN => NaN
  | PInf, NInf | NInf, PInf => NaN
  | PInf, _ | _, PInf => PInf
  | NInf, _ | _, NInf => NInf
  | Fin a, Fin b => Fin (a + b)%Qc
  end.

Definition fopp (x : float64) : float64 :=
  match x with
  | Fin a => Fin (- a)%Qc
  | PInf => NInf
  | NInf => PInf
  | NaN => NaN
  end.

Definition fsub (x y : float64) : float64 := fadd x (fopp y).

(** The infinity that has the sign of [a], [nan] when [a] is zero. *)
Definition inf_of_sign (a : Qc) : float64 :=
  match (a ?= 0)%Qc with
  | Eq => NaN
  | Gt => PInf
  | Lt => NInf
  end.

Definition fmul (x y : float64) : float64 :=
  match x, y with
  | NaN, _ | _, NaN => NaN
  | Fin a, Fin b => Fin (a * b)%Qc
  | Fin a, PInf | PInf, Fin a => inf_of_sign a
  | Fin a, NInf | NInf, Fin a => fopp (inf_of_sign a)
  | PInf, PInf | NInf, NInf => PInf
  | PInf, NInf | NInf, PInf => NInf
  end.

Definition fdiv (x y : float64) : float64 :=
  match x, y with
  | NaN, _ | _, NaN => NaN
  | Fin a, Fin b =>
      match (b ?= 0)%Qc with
      | Eq => inf_of_sign a
      | _ => Fin (a / b)%Qc
      end
  | Fin _, (PInf | NInf) => f0
  | PInf, Fin b => match (b ?= 0)%Qc with Lt => NInf | _ => PInf end
  | NInf, Fin b => match (b ?= 0)%Qc with Lt => PInf | _ => NInf end
  | (PInf | NInf), (PInf | NInf) => NaN
  end.

Infix "+" := fadd : float_scope.
Infix "-" := fsub : float_scope.
Infix "*" := fmul : float_scope.
Infix "/" := fdiv : float_scope.

Definition is_finite (x : float64) : bool :=
  match x with Fin _ => true | _ => false end.

Definition float_eqb (x y : float64) : bool :=
  match x, y with
  | Fin a, Fin b => Qc_eq_bool a b
  | PInf, PInf | NInf, NInf | NaN, NaN => true
  | _, _ => false
  end.

(** The rational [n], and the float a Python integer converts to. *)
Definition Qc_of_nat (n : nat) : Qc := Q2Qc (inject_Z (Z.of_nat n)).

Definition of_nat (n : nat) : float64 := Fin (Qc_of_nat n).

(** ** Arrays

    A one-dimensional array is a list, a two-dimensional one the list of its
    rows.  The module [sp] holds the array functions the source reaches as
    [sp.transpose], [sp.shape], [sp.eye] and [sp.sum], and the arithmetic
    of arrays the source writes with [-], [*] and [/]. *)

Definition vector : Type := list float64.
Definition matrix : Type := list (list float64).

(** [A[r][c]], zero out of range (no access of the source is out of range). *)
Definition entry (M : matrix) (r c : nat) : float64 :=
  nth c (nth r M []) f0.

(** The [n] by [m] array whose entry at [(r, c)] is [f r c]. *)
Definition tabulate (n m : nat) (f : nat -> nat -> float64) : matrix :=
  map (fun r => map (fun c => f r c) (seq 0 m)) (seq 0 n).

(** An [n] by [n] array. *)
Definition square (n : nat) (M : matrix) : Prop :=
  length M = n /\ Forall (fun r => length r = n) M.

Module sp.

Definition nrows (M : matrix) : nat := length M.

Definition ncols (M : matrix) : nat :=
  match M with
  | [] => 0
  | r :: _ => length r
  end.

(** [sp.shape(A)] *)
Definition shape (M : matrix) : nat * nat := (nrows M, ncols M).

(** [sp.transpose(A)] *)
Definition transpose (M : matrix) : matrix :=
  tabulate (ncols M) (nrows M) (fun r c => entry M c r).

(** [sp.eye(n, m)] *)
Definition eye (n m : nat) : matrix :=
  tabulate n m (fun r c => if Nat.eqb r c then f1 else f0).

(** [A - B], elementwise, for arrays of one shape. *)
Definition sub (A B : matrix) : matrix := zip_with (zip_with fsub) A B.

(** [k * A], a scalar times an array. *)
Definition scal (k : float64) (A : matrix) : matrix := map (map (fmul k)) A.

(** [A / s], a two-dimensional array divided by a scalar. *)
Definition div (A : matrix) (s : float64) : matrix :=
  map (map (fun x => fdiv x s)) A.

(** [f / s], a one-dimensional array divided by a scalar. *)
Definition vdiv (v : vector) (s : float64) : vector :=
  map (fun x => fdiv x s) v.

(** [sp.sum(v)] of a one-dimensional array. *)
Definition sum (v : vector) : float64 := foldl fadd f0 v.

(** [sp.sum(A, axis=0)]: the rows are added up, which gives the column
    sums. *)
Definition sum_axis0 (M : matrix) : vector :=
  foldl (zip_with fadd) (repeat f0 (ncols M)) M.

(** [sp.sum(A, axis=1)]: each row is summed. *)
Definition sum_axis1 (M : matrix) : vector := map sum M.

End sp.

(** ** Python values and graphs *)

(** The objects that occur as graph nodes and as dictionary keys. *)
Inductive pyobj : Type :=
| PyInt (z : Z)
| PyStr (s : string).

#[global] Instance pyobj_eq_dec : EqDecision pyobj.
Proof. solve_decision. Defined.

#[global] Instance pyobj_countable : Countable pyobj.
Proof.
  refine (inj_countable'
            (fun o => match o with PyInt z => inl z | PyStr s => inr s end)
            (fun x => match x with inl z => PyInt z | inr s => PyStr s end) _).
  intros [z | s]; reflexivity.
Defined.

Module nx.

(** The runtime type of a graph object: one of the four graph classes of
    the package or a class derived from one of them. *)
Inductive class : Type :=
| Graph
| DiGraph
| MultiGraph
| MultiDiGraph
| Subclass (name : string) (base : class).

#[global] Instance class_eq_dec : EqDecision class.
Proof. solve_decision. Defined.

(** A graph object: its class, its nodes in iteration order, and its
    edges with their weights (1 for an edge without a weight).  The edges
    of an undirected graph are unordered pairs, kept once. *)
Record graph : Type := mk_graph {
  type : class;
  nodes : list pyobj;
  edges : list (pyobj * pyobj * Qc)
}.

(** Modelled from the spec: the graph classes are not among the source
    files; [is_directed] answers "is this graph directed?", by the class
    the object's class derives from. *)
Fixpoint class_is_directed (c : class) : bool :=
  match c with
  | Graph | MultiGraph => false
  | DiGraph | MultiDiGraph => true
  | Subclass _ base => class_is_directed base
  end.

(** Modelled from the spec: the graph classes are not among the source
    files; a class permits parallel edges when it is, or derives from,
    one of the two multigraph classes. *)
Fixpoint class_is_multigraph (c : class) : bool :=
  match c with
  | Graph | DiGraph => false
  | MultiGraph | MultiDiGraph => true
  | Subclass _ base => class_is_multigraph base
  end.

(** Modelled from the spec: [to_directed] is not among the source files;
    it builds a new directed graph on the same nodes, with the edges
    [u -> v] and [v -> u] for every undirected edge [{u, v}], a self-loop
    kept once. *)
Definition directed_edges (es : list (pyobj * pyobj * Qc))
  : list (pyobj * pyobj * Qc) :=
  flat_map (fun e => match e with
                     | (u, v, w) =>
                         if decide (u = v) then [(u, v, w)]
                         else [(u, v, w); (v, u, w)]
                     end) es.

Definition to_directed_graph (g : graph) : graph :=
  {| type := if class_is_multigraph (type g) then MultiDiGraph else DiGraph;
     nodes := nodes g;
     edges := directed_edges (edges g) |}.

(** Modelled from the spec: [adjacency_matrix] is not among the source
    files; the entry at [(i, j)] is the weight of the edge from the
    [i]-th to the [j]-th node in the graph's node order, 0 when there is
    none, the weights of parallel edges added up. *)
Definition joins (directed : bool) (u v : pyobj) (e : pyobj * pyobj * Qc)
  : bool :=
  match e with
  | (a, b, _) =>
      (bool_decide (a = u) && bool_decide (b = v))
      || (negb directed && bool_decide (a = v) && bool_decide (b = u))
  end.

Definition weight (g : graph) (u v : pyobj) : float64 :=
  sp.sum (map (fun e => Fin (snd e))
              (List.filter (joins (class_is_directed (type g)) u v)
                           (edges g))).

Definition adjacency (g : graph) : matrix :=
  map (fun u => map (fun v => weight g u v) (nodes g)) (nodes g).

End nx.

(** ** The interpreter state and the libraries

    Graph objects are mutable and reached by reference: the store maps the
    identity of an object to its current value.  The log lists the calls
    made on graph objects, in order. *)

Definition loc : Type := positive.

Inductive event : Type :=
| IsDirected (G : loc)
| ToDirected (G D : loc)
| AdjacencyMatrix (D : loc).

Record world : Type := mk_world {
  store : gmap loc nx.graph;
  log : list event
}.

(** The exceptions the two functions can end with.  [AttributeError] is what
    a method call on an object that is no graph raises. *)
Inductive exn : Type :=
| ImportError (msg : string)
| Exception (msg : string)
| AttributeError.

(** [scipy]: of the functions the source takes from it, [expm1] is kept
    abstract (the array functions are those of module [sp]). *)
Record scipy_module : Type := {
  expm1 : float64 -> float64
}.

(** [scipy.linalg.matfuncs]: the matrix exponential is kept abstract; it
    returns an array of the shape of its square argument. *)
Record matfuncs_module : Type := {
  expm : matrix -> matrix;
  expm_square : forall n M, square n M -> square n (expm M)
}.

(** What the three [import] statements find. *)
Record runtime : Type := {
  scipy : option scipy_module;
  scipy_linalg : bool;
  scipy_linalg_matfuncs : option matfuncs_module
}.

(** A computation: it reads and changes the world and ends with a value or
    with an exception. *)
Definition M (A : Type) : Type := world -> (exn + A) * world.

Definition ret {A} (a : A) : M A := fun w => (inr a, w).

Definition raise {A} (e : exn) : M A := fun w => (inl e, w).

Definition bind {A B} (m : M A) (k : A -> M B) : M B :=
  fun w =>
    match m w with
    | (inl e, w') => (inl e, w')
    | (inr a, w') => k a w'
    end.

#[global] Instance M_ret : MRet M := @ret.
#[global] Instance M_bind : MBind M := fun A B k m => bind m k.

(** [try: import ... except ImportError: raise ImportError(msg)] *)
Definition import {A} (found : option A) (msg : string) : M A :=
  match found with
  | Some m => ret m
  | None => raise (ImportError msg)
  end.

(** [type(G)]; [None] stands for the type of an object that is no graph. *)
Definition type_of (G : loc) : M (option nx.class) :=
  fun w => (inr (nx.type <$> store w !! G), w).

(** [type(G) == C] *)
Definition type_is (t : option nx.class) (C : nx.class) : bool :=
  bool_decide (t = Some C).

(** The method of a graph object, or [AttributeError]. *)
Definition deref (G : loc) : M nx.graph :=
  fun w =>
    match store w !! G with
    | Some g => (inr g, w)
    | None => (inl AttributeError, w)
    end.

Definition emit (e : event) : M unit :=
  fun w => (inr tt, {| store := store w; log := log w ++ [e] |}).

(** A new object. *)
Definition alloc (g : nx.graph) : M loc :=
  fun w =>
    let l := fresh (dom (store w)) in
    (inr l, {| store := <[l := g]> (store w); log := log w |}).

(** [G.is_directed()] *)
Definition is_directed (G : loc) : M bool :=
  g ← deref G;
  _ ← emit (IsDirected G);
  ret (nx.class_is_directed (nx.type g)).

(** [G.to_directed()]: a new graph object, the receiver is only read. *)
Definition to_directed (G : loc) : M loc :=
  g ← deref G;
  D ← alloc (nx.to_directed_graph g);
  _ ← emit (ToDirected G D);
  ret D.

(** [nx.adjacency_matrix(D)] *)
Definition adjacency_matrix (D : loc) : M matrix :=
  g ← deref D;
  _ ← emit (AdjacencyMatrix D);
  ret (nx.adjacency g).

(** ** Dictionaries *)

(** [range(j)] *)
Definition range (j : nat) : list Z := map Z.of_nat (seq 0 j).

(** [{i: number for number, i in pairs}]: the pairs are inserted in order, a
    later one replaces an earlier one with the same key. *)
Definition dict_of (pairs : list (float64 * Z)) : gmap pyobj float64 :=
  foldl (fun m p => <[PyInt (snd p) := fst p]> m) ∅ pairs.

(** [{'influences': fdict, 'dependences': ddict}] *)
Record result : Type := mk_result {
  influences : gmap pyobj float64;
  dependences : gmap pyobj float64
}.

(** ** The two functions *)

Section Functions.

Variable env : runtime.

Definition heatkernel (G : loc) (k : float64) : M result :=
  _ ← import (scipy env) "heatkernel() requires SciPy: http://scipy.org/";
  _ ← import (if scipy_linalg env then Some tt else None)
         "heatkernel() requires scipy.linalg: http://scipy.org";
  matf ← import (scipy_linalg_matfuncs env)
         "heatkernel() requires scipy.linalg.matfuncs: http://scipy.org";
  t ← type_of G;
  if type_is t nx.MultiGraph || type_is t nx.MultiDiGraph then
    raise (Exception "heatkernel() not defined for graphs with multiedges.")
  else
    directed ← is_directed G;
    D ← (if negb directed then to_directed G else ret G);
    (* get the adjacency matrix of the graph *)
    A ← adjacency_matrix D;
    (* transpose de adjacency matrix *)
    let A := sp.transpose A in
    (* get the size of the matrix *)
    let j := snd (sp.shape A) in
    let I := expm matf (sp.scal k (sp.sub A (sp.eye j j))) in
    (* get the indirect influences vector *)
    let f := sp.sum_axis0 I in
    let f := sp.vdiv f (sp.sum f) in
    (* get the indirect dependences vector *)
    let d := sp.sum_axis1 I in
    let d := sp.vdiv d (sp.sum d) in
    (* create the dictionary with the result *)
    let fdict := dict_of (zip f (range j)) in
    let ddict := dict_of (zip d (range j)) in
    ret {| influences := fdict; dependences := ddict |}.

Definition pwp (G : loc) (k : float64) : M result :=
  sp ← import (scipy env) "pwp() requires SciPy: http://scipy.org/";
  _ ← import (if scipy_linalg env then Some tt else None)
         "pwp() requires scipy.linalg: http://scipy.org";
  matf ← import (scipy_linalg_matfuncs env)
         "pwp() requires scipy.linalg.matfuncs: http://scipy.org";
  t ← type_of G;
  if type_is t nx.MultiGraph || type_is t nx.MultiDiGraph then
    raise (Exception "pwp() not defined for graphs with multiedges.")
  else
    directed ← is_directed G;
    D ← (if negb directed then to_directed G else ret G);
    A ← adjacency_matrix D;
    let A := sp.transpose A in
    let j := snd (sp.shape A) in
    let I := sp.div (sp.sub (expm matf (sp.scal k A)) (sp.eye j j))
                    (expm1 sp k) in
    let f := sp.sum_axis0 I in
    let f := sp.vdiv f (sp.sum f) in
    let d := sp.sum_axis1 I in
    let d := sp.vdiv d (sp.sum d) in
    let fdict := dict_of (zip f (range j)) in
    let ddict := dict_of (zip d (range j)) in
    ret {| influences := fdict; dependences := ddict |}.

End Functions.

(** ** Computable instances of the abstract primitives

    The Taylor polynomial of degree [N] in place of the exponential, by
    Horner's rule: [1 + x/1 (1 + x/2 (... (1 + x/N)))].  They serve to run the
    two functions on concrete graphs. *)

(** [A B], the matrix product of two [n] by [n] arrays. *)
Definition mmul (n : nat) (A B : matrix) : matrix :=
  tabulate n n (fun r c =>
    sp.sum (map (fun t => fmul (entry A r t) (entry B t c)) (seq 0 n))).

Fixpoint horner (n : nat) (M : matrix) (i N : nat) : matrix :=
  match N with
  | O => sp.eye n n
  | S N' =>
      let P := mmul n M (horner n M (S i) N') in
      tabulate n n (fun r c =>
        fadd (entry (sp.eye n n) r c) (fdiv (entry P r c) (of_nat i)))
  end.

Definition expm_taylor (N : nat) (M : matrix) : matrix :=
  horner (length M) M 1 N.

Fixpoint horner1 (x : Qc) (i N : nat) : Qc :=
  match N with
  | O => 1%Qc
  | S N' => (1 + x * horner1 x (S i) N' / Qc_of_nat i)%Qc
  end.

Definition exp_taylor (N : nat) (x : float64) : float64 :=
  match x with
  | Fin q => Fin (horner1 q 1 N)
  | PInf => PInf
  | NInf => f0
  | NaN => NaN
  end.

Definition expm1_taylor (N : nat) (x : float64) : float64 :=
  fsub (exp_taylor N x) f1.

Lemma square_tabulate n f : square n (tabulate n n f).
Proof.
  unfold square, tabulate. split.
  - now rewrite length_map, length_seq.
  - apply Forall_forall. intros r Hr.
    apply list_elem_of_In, in_map_iff in Hr.
    destruct Hr as [i [<- _]]. now rewrite length_map, length_seq.
Qed.

Lemma square_horner n M i N : square n (horner n M i N).
Proof. destruct N; simpl; apply square_tabulate. Qed.

Lemma expm_taylor_square N n M : square n M -> square n (expm_taylor N M).
Proof.
  intros [Hlen _]. unfold expm_taylor. rewrite Hlen. apply square_horner.
Qed.

Definition taylor_scipy (N : nat) : scipy_module :=
  {| expm1 := expm1_taylor N |}.

Definition taylor_matfuncs (N : nat) : matfuncs_module :=
  {| expm := expm_taylor N; expm_square := expm_taylor_square N |}.

(** A runtime in which the three imports succeed. *)
Definition installed (sp : scipy_module) (matf : matfuncs_module) : runtime :=
  {| scipy := Some sp; scipy_linalg := true;
     scipy_linalg_matfuncs := Some matf |}.

Definition taylor_runtime (N : nat) : runtime :=
  installed (taylor_scipy N) (taylor_matfuncs N).


(** ** The pieces of a call

    What a call that passes the type test computes, as pure functions of the
    graph object: the graph handed to [nx.adjacency_matrix], the transposed
    matrix, the two transforms, and the dictionaries built from a
    transform. *)

Definition directed_form (g : nx.graph) : nx.graph :=
  if nx.class_is_directed (nx.type g) then g else nx.to_directed_graph g.

Definition prepared (g : nx.graph) : matrix :=
  sp.transpose (nx.adjacency (directed_form g)).

Definition heat_transform (matf : matfuncs_module) (A : matrix) (k : float64)
  : matrix :=
  let j := snd (sp.shape A) in
  expm matf (sp.scal k (sp.sub A (sp.eye j j))).

Definition pwp_transform (sp : scipy_module) (matf : matfuncs_module)
    (A : matrix) (k : float64) : matrix :=
  let j := snd (sp.shape A) in
  sp.div (sp.sub (expm matf (sp.scal k A)) (sp.eye j j)) (expm1 sp k).

Definition normalized (v : vector) : vector := sp.vdiv v (sp.sum v).

Definition scores (I : matrix) (j : nat) : result :=
  {| influences := dict_of (zip (normalized (sp.sum_axis0 I)) (range j));
     dependences := dict_of (zip (normalized (sp.sum_axis1 I)) (range j)) |}.

(** The world after the calls on the graph object. *)
Definition after_call (G : loc) (g : nx.graph) (w : world) : world :=
  if nx.class_is_directed (nx.type g) then
    {| store := store w;
       log := (log w ++ [IsDirected G]) ++ [AdjacencyMatrix G] |}
  else
    let D := fresh (dom (store w)) in
    {| store := <[D := nx.to_directed_graph g]> (store w);
       log := ((log w ++ [IsDirected G]) ++ [ToDirected G D])
                ++ [AdjacencyMatrix D] |}.

(** The type test of the two functions. *)
Definition exact_multigraph (c : nx.class) : Prop :=
  c = nx.MultiGraph \/ c = nx.MultiDiGraph.


(** The dictionary [d] has exactly the keys [0 .. n-1], with [s i] at [i]. *)
Definition indexed_by (d : gmap pyobj float64) (n : nat)
    (s : nat -> float64) : Prop :=
  forall key : pyobj,
    d !! key =
      match key with
      | PyInt z =>
          if decide (0 <= z < Z.of_nat n)%Z then Some (s (Z.to_nat z))
          else None
      | PyStr _ => None
      end.

(** ** Auxiliary definitions *)

(** The [i]-th node in the graph's node order. *)
Definition node (g : nx.graph) (i : nat) : pyobj := nth i (nx.nodes g) (PyInt 0).

(** The keys [0 .. n-1], as a set. *)
Definition indices (n : nat) : gset pyobj := list_to_set (map PyInt (range n)).

(** The sum of column [c] and of row [r] of the [n] by [n] array with the
    entries [t r c]. *)
Definition col_sum (n : nat) (t : nat -> nat -> float64) (c : nat) : float64 :=
  sp.sum (map (fun r => t r c) (seq 0 n)).

Definition row_sum (n : nat) (t : nat -> nat -> float64) (r : nat) : float64 :=
  sp.sum (map (fun c => t r c) (seq 0 n)).

(** The [i]-th entry of the vector [raw 0 .. raw (n-1)] divided by the sum
    of the vector. *)
Definition share (n : nat) (raw : nat -> float64) (i : nat) : float64 :=
  fdiv (raw i) (sp.sum (map raw (seq 0 n))).

(** The entry of [sp.eye(n, n)] at [(r, c)]. *)
Definition delta (r c : nat) : float64 := if Nat.eqb r c then f1 else f0.

(** The entry of the prepared matrix: the weight of the edge into node [r]
    from node [c] of the graph handed to [nx.adjacency_matrix]. *)
Definition inflow (g : nx.graph) (r c : nat) : float64 :=
  nx.weight (directed_form g) (node g c) (node g r).

(** ** The specification's pipeline

    The definitions of this module follow the words of the specification:
    the transposed adjacency matrix, the two transform formulas, the two
    reductions and the normalization, all by index. *)

Module Spec.

(** The sum of [f 0 .. f (n-1)]. *)
Definition big_sum (n : nat) (f : nat -> float64) : float64 :=
  foldr (fun i acc => fadd (f i) acc) f0 (seq 0 n).

(** The identity matrix [I]. *)
Definition identity (i j : nat) : float64 :=
  if decide (i = j) then f1 else f0.

(** [A[i][j]]: the weight of the directed edge from node [i] to node [j]. *)
Definition A (g : nx.graph) (i j : nat) : float64 :=
  nx.weight g (node g i) (node g j).

(** [At[i][j]]: the influence flowing into [i] from [j]. *)
Definition At (g : nx.graph) (i j : nat) : float64 := A g j i.

(** [expm(k (At - I))] *)
Definition heat_T (matf : matfuncs_module) (n : nat)
    (At : nat -> nat -> float64) (k : float64) : matrix :=
  expm matf (tabulate n n (fun i j => fmul k (fsub (At i j) (identity i j)))).

(** [(expm(k At) - I) / (exp(k) - 1)] *)
Definition pwp_T (matf : matfuncs_module) (exp : float64 -> float64) (n : nat)
    (At : nat -> nat -> float64) (k : float64) : matrix :=
  let E := expm matf (tabulate n n (fun i j => fmul k (At i j))) in
  tabulate n n (fun i j =>
    fdiv (fsub (entry E i j) (identity i j)) (fsub (exp k) f1)).

(** Reduction along axis 0: the sum over the rows, one value per column. *)
Definition reduce_axis0 (n : nat) (T : matrix) (c : nat) : float64 :=
  big_sum n (fun r => entry T r c).

(** Reduction along axis 1: the sum over the columns, one value per row. *)
Definition reduce_axis1 (n : nat) (T : matrix) (r : nat) : float64 :=
  big_sum n (fun c => entry T r c).

(** A vector divided by its own sum. *)
Definition normalize (n : nat) (raw : nat -> float64) (i : nat) : float64 :=
  fdiv (raw i) (big_sum n raw).

End Spec.

(** What a call can do to the store: nothing, or add the directed copy. *)
Definition store_step (G : loc) (w w' : world) : Prop :=
  store w' = store w
  \/ exists g, store w !! G = Some g
       /\ store w' = <[fresh (dom (store w)) := nx.to_directed_graph g]> (store w).

(** The node set of a graph. *)
Definition node_set (g : nx.graph) : gset pyobj := list_to_set (nx.nodes g).

(** The graph has two edges between the same ordered pair of nodes. *)
Definition has_parallel_edges (g : nx.graph) : bool :=
  negb (bool_decide (NoDup (map fst (nx.edges g)))).

(** [1/n] *)
Definition one_over (n : nat) : float64 := Fin (1 / Qc_of_nat n)%Qc.

(** The [n] by [n] array of zeros. *)
Definition zeros (n : nat) : matrix := tabulate n n (fun _ _ => f0).

(** Equality of arrays, decided entry by entry. *)
Fixpoint vector_eqb (u v : vector) : bool :=
  match u, v with
  | [], [] => true
  | x :: u', y :: v' => float_eqb x y && vector_eqb u' v'
  | _, _ => false
  end.

Fixpoint matrix_eqb (A B : matrix) : bool :=
  match A, B with
  | [], [] => true
  | u :: A', v :: B' => vector_eqb u v && matrix_eqb A' B'
  | _, _ => false
  end.

(** The score of key [i] in [d] is [v]. *)
Definition score_is (d : gmap pyobj float64) (v : float64) (i : Z) : bool :=
  match d !! PyInt i with
  | Some x => float_eqb x v
  | None => false
  end.

(** A finite value other than zero. *)
Definition nonzero_finite (x : float64) : bool :=
  match x with
  | Fin q => negb (Qc_eq_bool q 0)
  | _ => false
  end.

(** ** Concrete inputs *)

Definition G0 : loc := 1%positive.

(** A world that holds one graph object, at [G0]. *)
Definition world_of (g : nx.graph) : world :=
  {| store := {[ G0 := g ]}; log := [] |}.

(** [nx.DiGraph] with the edges 0 -> 1 and 1 -> 2. *)
Definition di_path3 : nx.graph :=
  nx.mk_graph nx.DiGraph [PyInt 0; PyInt 1; PyInt 2]
    [(PyInt 0, PyInt 1, 1%Qc); (PyInt 1, PyInt 2, 1%Qc)].

(** [nx.path_graph(4)]: the undirected path 0 - 1 - 2 - 3. *)
Definition path4 : nx.graph :=
  nx.mk_graph nx.Graph [PyInt 0; PyInt 1; PyInt 2; PyInt 3]
    [(PyInt 0, PyInt 1, 1%Qc); (PyInt 1, PyInt 2, 1%Qc);
     (PyInt 2, PyInt 3, 1%Qc)].

(** The nodes 0, 1, 2 and no edges. *)
Definition edgeless3 : nx.graph :=
  nx.mk_graph nx.Graph [PyInt 0; PyInt 1; PyInt 2] [].

(** [nx.DiGraph] on the nodes ['a'] and ['b'] with the edge a -> b. *)
Definition named_digraph : nx.graph :=
  nx.mk_graph nx.DiGraph [PyStr "a"; PyStr "b"]
    [(PyStr "a", PyStr "b", 1%Qc)].

(** [nx.MultiGraph] with two parallel edges between 0 and 1. *)
Definition multigraph2 : nx.graph :=
  nx.mk_graph nx.MultiGraph [PyInt 0; PyInt 1]
    [(PyInt 0, PyInt 1, 1%Qc); (PyInt 0, PyInt 1, 1%Qc)].

(** An instance of [class RoadNetwork(nx.MultiGraph)] with the same two
    parallel edges. *)
Definition road_network : nx.graph :=
  nx.mk_graph (nx.Subclass "RoadNetwork" nx.MultiGraph) [PyInt 0; PyInt 1]
    [(PyInt 0, PyInt 1, 1%Qc); (PyInt 0, PyInt 1, 1%Qc)].

(** ** Definitions for the further properties *)


(** A finite value that is not negative. *)
Definition nonnegb (x : float64) : bool :=
  match x with
  | Fin q => Qle_bool 0 q
  | _ => false
  end.

(** Every entry of the array is finite and not negative. *)
Definition nonneg_matrix (T : matrix) : bool := forallb (forallb nonnegb) T.

(** A finite value between 0 and 1. *)
Definition probability (x : float64) : Prop :=
  exists q : Qc, x = Fin q /\ (0 <= q)%Qc /\ (q <= 1)%Qc.

(** ** The test fixture *)

(** How [setup_module] can end: with the [ImportError] of
    [from nose import SkipTest], or with the [SkipTest] it raises. *)
Inductive fixture_exn : Type :=
| NoseImportError
| SkipTest (msg : string).

(** [setup_module(module)], the same in both files: [nose] tells whether
    [from nose import SkipTest] succeeds; the bare [except] turns a failed
    [import scipy] into [SkipTest].  The argument [module] is not used. *)
Definition setup_module (nose : bool) (env : runtime) : fixture_exn + unit :=
  if nose then
    match scipy env with
    | Some _ => inr tt
    | None => inl (SkipTest "SciPy not available")
    end
  else inl NoseImportError.

(** ** A matrix exponential within the range of [float64]

    The largest finite [float64], and the Taylor polynomial with every entry
    beyond it replaced by [inf] or [-inf], as the overflow of the real
    primitive returns it. *)







(** * Properties *)

(** ** Arithmetic *)

Lemma fadd_comm x y : fadd x y = fadd y x.
Proof.
  destruct x, y; simpl; try reflexivity. f_equal. apply Qcplus_comm.
Qed.

Lemma fadd_assoc x y z : fadd x (fadd y z) = fadd (fadd x y) z.
Proof.
  destruct x, y, z; simpl; try reflexivity. f_equal. apply Qcplus_assoc.
Qed.

Lemma fadd_0_l x : fadd f0 x = x.
Proof. destruct x; simpl; try reflexivity. f_equal. apply Qcplus_0_l. Qed.

Lemma fadd_0_r x : fadd x f0 = x.
Proof. rewrite fadd_comm. apply fadd_0_l. Qed.

Lemma float_eqb_eq x y : float_eqb x y = true -> x = y.
Proof.
  destruct x, y; simpl; try discriminate; try reflexivity.
  intros H. f_equal. now apply Qc_eq_bool_correct.
Qed.

Lemma sum_from a (l : vector) : foldl fadd a l = fadd a (sp.sum l).
Proof.
  unfold sp.sum. revert a. induction l as [|x l IH]; intros a; cbn [foldl].
  - now rewrite fadd_0_r.
  - rewrite (IH (fadd a x)), (IH (fadd f0 x)), fadd_0_l.
    symmetry. apply fadd_assoc.
Qed.

Lemma sum_cons x (l : vector) : sp.sum (x :: l) = fadd x (sp.sum l).
Proof. unfold sp.sum at 1. cbn [foldl]. now rewrite sum_from, fadd_0_l. Qed.

Lemma sum_snoc x (l : vector) : sp.sum (l ++ [x]) = fadd (sp.sum l) x.
Proof. unfold sp.sum. apply foldl_snoc. Qed.

(** ** Arrays in tabulated form *)

Lemma nth_map_seq {A} (f : nat -> A) n i d :
  i < n -> nth i (map f (seq 0 n)) d = f i.
Proof.
  intros Hi. rewrite (nth_indep _ d (f 0)) by now rewrite length_map, length_seq.
  rewrite map_nth, seq_nth; auto.
Qed.

Lemma map_seq_ext {A} (f g : nat -> A) n :
  (forall i, i < n -> f i = g i) -> map f (seq 0 n) = map g (seq 0 n).
Proof.
  intros H. apply map_ext_in. intros i Hi. apply in_seq in Hi. apply H. lia.
Qed.

Lemma list_as_map_seq {A} (l : list A) n d :
  length l = n -> l = map (fun i => nth i l d) (seq 0 n).
Proof.
  intros Hn. apply (nth_ext _ _ d d).
  - now rewrite length_map, length_seq.
  - intros i Hi. rewrite nth_map_seq; [reflexivity | lia].
Qed.

Lemma map_as_map_seq {A B} (f : A -> B) (l : list A) d :
  map f l = map (fun i => f (nth i l d)) (seq 0 (length l)).
Proof.
  rewrite (list_as_map_seq l (length l) d) at 1 by reflexivity.
  now rewrite map_map.
Qed.

Lemma zip_with_map {A B C D} (g : B -> C -> D) (a : A -> B) (b : A -> C) l :
  zip_with g (map a l) (map b l) = map (fun i => g (a i) (b i)) l.
Proof. induction l; simpl; congruence. Qed.

Lemma tabulate_ext n m f g :
  (forall r c, r < n -> c < m -> f r c = g r c) ->
  tabulate n m f = tabulate n m g.
Proof.
  intros H. unfold tabulate. apply map_seq_ext. intros r Hr.
  apply map_seq_ext. intros c Hc. now apply H.
Qed.

Lemma entry_tabulate n m f r c :
  r < n -> c < m -> entry (tabulate n m f) r c = f r c.
Proof.
  intros Hr Hc. unfold entry, tabulate.
  rewrite (nth_map_seq _ n r) by assumption. now apply nth_map_seq.
Qed.

Lemma square_as_tabulate n M : square n M -> M = tabulate n n (entry M).
Proof.
  intros [Hlen Hrows]. unfold tabulate.
  rewrite (list_as_map_seq M n []) at 1 by assumption.
  apply map_seq_ext. intros r Hr. unfold entry.
  apply list_as_map_seq.
  rewrite Forall_forall in Hrows. apply Hrows.
  apply list_elem_of_In, nth_In. lia.
Qed.

Lemma ncols_tabulate n f : sp.ncols (tabulate n n f) = n.
Proof.
  destruct n; [reflexivity |]. unfold tabulate. simpl.
  now rewrite length_map, length_seq.
Qed.

Lemma nrows_tabulate n m f : sp.nrows (tabulate n m f) = n.
Proof. unfold sp.nrows, tabulate. now rewrite length_map, length_seq. Qed.

Lemma transpose_tabulate n f :
  sp.transpose (tabulate n n f) = tabulate n n (fun r c => f c r).
Proof.
  unfold sp.transpose. rewrite ncols_tabulate, nrows_tabulate.
  apply tabulate_ext. intros r c Hr Hc. now apply entry_tabulate.
Qed.

Lemma sub_tabulate n m f g :
  sp.sub (tabulate n m f) (tabulate n m g)
  = tabulate n m (fun r c => fsub (f r c) (g r c)).
Proof.
  unfold sp.sub, tabulate. rewrite zip_with_map.
  apply map_ext. intros r. apply zip_with_map.
Qed.

Lemma scal_tabulate k n m f :
  sp.scal k (tabulate n m f) = tabulate n m (fun r c => fmul k (f r c)).
Proof.
  unfold sp.scal, tabulate. rewrite map_map.
  apply map_ext. intros r. apply map_map.
Qed.

Lemma div_tabulate s n m f :
  sp.div (tabulate n m f) s = tabulate n m (fun r c => fdiv (f r c) s).
Proof.
  unfold sp.div, tabulate. rewrite map_map.
  apply map_ext. intros r. apply map_map.
Qed.

Lemma sum_axis1_tabulate n m f :
  sp.sum_axis1 (tabulate n m f)
  = map (fun r => sp.sum (map (f r) (seq 0 m))) (seq 0 n).
Proof. unfold sp.sum_axis1, tabulate. apply map_map. Qed.

Lemma add_rows {A} (f : A -> nat -> float64) (cs : list nat) (rs : list A) a :
  foldl (zip_with fadd) (map a cs) (map (fun r => map (f r) cs) rs)
  = map (fun c => foldl fadd (a c) (map (fun r => f r c) rs)) cs.
Proof.
  revert a. induction rs as [|r rs IH]; intros a; simpl; [reflexivity |].
  rewrite zip_with_map. apply IH.
Qed.

Lemma sum_axis0_tabulate n f :
  sp.sum_axis0 (tabulate n n f)
  = map (fun c => sp.sum (map (fun r => f r c) (seq 0 n))) (seq 0 n).
Proof.
  unfold sp.sum_axis0. rewrite ncols_tabulate.
  replace (repeat f0 n) with (map (fun _ : nat => f0) (seq 0 n)).
  - unfold tabulate. apply add_rows.
  - apply (nth_ext _ _ f0 f0).
    + now rewrite length_map, length_seq, repeat_length.
    + intros i Hi. rewrite length_map, length_seq in Hi.
      rewrite nth_map_seq by assumption. now rewrite nth_repeat.
Qed.

(** ** The prepared matrix *)

Lemma adjacency_tabulate g :
  nx.adjacency g
  = tabulate (length (nx.nodes g)) (length (nx.nodes g))
      (fun r c => nx.weight g (node g r) (node g c)).
Proof.
  unfold nx.adjacency, tabulate.
  rewrite (map_as_map_seq _ (nx.nodes g) (PyInt 0)).
  apply map_ext. intros r. apply map_as_map_seq.
Qed.

Lemma nodes_directed_form g : nx.nodes (directed_form g) = nx.nodes g.
Proof. unfold directed_form. now destruct (nx.class_is_directed _). Qed.

Lemma prepared_tabulate g :
  prepared g
  = tabulate (length (nx.nodes g)) (length (nx.nodes g))
      (fun r c => nx.weight (directed_form g) (node g c) (node g r)).
Proof.
  unfold prepared. rewrite adjacency_tabulate, transpose_tabulate.
  unfold node. now rewrite nodes_directed_form.
Qed.

Lemma prepared_size g : snd (sp.shape (prepared g)) = length (nx.nodes g).
Proof. rewrite prepared_tabulate. simpl. apply ncols_tabulate. Qed.

(** ** Running the two functions *)

Lemma type_test_false (c : nx.class) :
  ~ exact_multigraph c ->
  type_is (Some c) nx.MultiGraph || type_is (Some c) nx.MultiDiGraph = false.
Proof.
  intros H. unfold type_is, exact_multigraph in *.
  apply orb_false_iff. split; apply bool_decide_eq_false; intros [= ->]; tauto.
Qed.

Lemma type_test_true (c : nx.class) :
  exact_multigraph c ->
  type_is (Some c) nx.MultiGraph || type_is (Some c) nx.MultiDiGraph = true.
Proof. intros [-> | ->]; reflexivity. Qed.

Ltac run_step Hg :=
  cbv beta iota; cbn [store log negb];
  rewrite ?Hg, ?lookup_insert_eq.

Ltac run_call Hg Hty :=
  unfold mbind, M_bind, bind, import, type_of, is_directed, to_directed,
    adjacency_matrix, mbind, M_bind, bind, deref, emit, alloc, ret, raise,
    after_call, directed_form;
  cbn [installed scipy scipy_linalg scipy_linalg_matfuncs];
  run_step Hg; cbn [fmap option_fmap option_map];
  rewrite (type_test_false _ Hty);
  run_step Hg;
  destruct (nx.class_is_directed (nx.type _));
  do 4 run_step Hg; reflexivity.

Lemma heatkernel_run sp matf G g k w :
  store w !! G = Some g ->
  ~ exact_multigraph (nx.type g) ->
  heatkernel (installed sp matf) G k w
  = (inr (scores (heat_transform matf (prepared g) k)
                 (snd (sp.shape (prepared g)))),
     after_call G g w).
Proof.
  intros Hg Hty. unfold heatkernel, prepared. run_call Hg Hty.
Qed.

Lemma pwp_run sp matf G g k w :
  store w !! G = Some g ->
  ~ exact_multigraph (nx.type g) ->
  pwp (installed sp matf) G k w
  = (inr (scores (pwp_transform sp matf (prepared g) k)
                 (snd (sp.shape (prepared g)))),
     after_call G g w).
Proof.
  intros Hg Hty. unfold pwp, prepared. run_call Hg Hty.
Qed.

(** ** Dictionaries built from a vector *)

Lemma dict_of_snoc l v i :
  dict_of (l ++ [(v, i)]) = <[PyInt i := v]> (dict_of l).
Proof. unfold dict_of. now rewrite foldl_snoc. Qed.

Lemma range_S n : range (S n) = range n ++ [Z.of_nat n].
Proof. unfold range. now rewrite seq_S, map_app. Qed.

Lemma length_range n : length (range n) = n.
Proof. unfold range. now rewrite length_map, length_seq. Qed.

Lemma zip_range_snoc (v : vector) x :
  zip (v ++ [x]) (range (S (length v)))
  = zip v (range (length v)) ++ [(x, Z.of_nat (length v))].
Proof.
  rewrite range_S, (zip_with_app pair) by now rewrite length_range.
  reflexivity.
Qed.

Lemma dict_of_indexed (v : vector) :
  indexed_by (dict_of (zip v (range (length v)))) (length v)
    (fun i => nth i v f0).
Proof.
  induction v as [|x v IH] using rev_ind.
  - intros [z | s]; simpl; [| reflexivity].
    unfold dict_of. simpl. rewrite lookup_empty.
    destruct (decide _); [lia | reflexivity].
  - rewrite length_app, Nat.add_1_r, zip_range_snoc, dict_of_snoc.
    intros key. destruct (decide (key = PyInt (Z.of_nat (length v)))) as [-> | Hne].
    + rewrite lookup_insert_eq. rewrite decide_True by lia.
      rewrite Nat2Z.id, app_nth2, Nat.sub_diag by lia. reflexivity.
    + rewrite lookup_insert_ne by congruence. rewrite (IH key).
      destruct key as [z | s]; [| reflexivity].
      destruct (decide (0 <= z < Z.of_nat (length v))%Z) as [Hz | Hz].
      * rewrite decide_True by lia. f_equal. rewrite app_nth1; [reflexivity | lia].
      * rewrite decide_False; [reflexivity |].
        intros Hz'. apply Hne. f_equal. lia.
Qed.

Lemma indexed_by_ext d n s s' :
  indexed_by d n s -> (forall i, i < n -> s i = s' i) -> indexed_by d n s'.
Proof.
  intros Hd Hs key. rewrite (Hd key). destruct key as [z | ?]; [| reflexivity].
  destruct (decide _); [| reflexivity]. f_equal. apply Hs. lia.
Qed.

Lemma indexed_by_lookup d n s i :
  indexed_by d n s -> i < n -> d !! PyInt (Z.of_nat i) = Some (s i).
Proof.
  intros Hd Hi. rewrite (Hd _). rewrite decide_True by lia. now rewrite Nat2Z.id.
Qed.

Lemma indexed_by_inv d n s key v :
  indexed_by d n s -> d !! key = Some v ->
  exists i, i < n /\ key = PyInt (Z.of_nat i) /\ v = s i.
Proof.
  intros Hd Hk. rewrite (Hd key) in Hk. destruct key as [z | ?]; [| discriminate].
  destruct (decide _) as [Hz | ]; [| discriminate].
  exists (Z.to_nat z). repeat split; [lia | f_equal; lia | congruence].
Qed.

Lemma elem_of_indices key n :
  key ∈ indices n <-> exists i, i < n /\ key = PyInt (Z.of_nat i).
Proof.
  unfold indices, range. rewrite elem_of_list_to_set, list_elem_of_In, map_map.
  rewrite in_map_iff. split.
  - intros [i [<- Hi]]. apply in_seq in Hi. exists i. split; [lia | reflexivity].
  - intros [i [Hi ->]]. exists i. split; [reflexivity | apply in_seq; lia].
Qed.

Lemma indexed_by_dom d n s : indexed_by d n s -> dom d = indices n.
Proof.
  intros Hd. apply set_eq. intros key.
  rewrite elem_of_dom, elem_of_indices. split.
  - intros [v Hv]. destruct (indexed_by_inv _ _ _ _ _ Hd Hv) as [i [? [? ?]]].
    eauto.
  - intros [i [Hi ->]]. rewrite (indexed_by_lookup _ _ _ _ Hd Hi). eauto.
Qed.


(** ** The scores of a square transform *)

Lemma normalized_map_seq n raw :
  normalized (map raw (seq 0 n)) = map (share n raw) (seq 0 n).
Proof. unfold normalized, sp.vdiv, share. now rewrite map_map. Qed.

Lemma dict_of_map_seq n (s : nat -> float64) :
  indexed_by (dict_of (zip (map s (seq 0 n)) (range n))) n s.
Proof.
  pose proof (dict_of_indexed (map s (seq 0 n))) as H.
  rewrite length_map, length_seq in H.
  apply (indexed_by_ext _ _ _ _ H). intros i Hi. now apply nth_map_seq.
Qed.

Lemma influences_scores n t :
  indexed_by (influences (scores (tabulate n n t) n)) n (share n (col_sum n t)).
Proof.
  unfold scores. cbn [influences].
  rewrite sum_axis0_tabulate. fold (col_sum n t).
  rewrite normalized_map_seq. apply dict_of_map_seq.
Qed.

Lemma dependences_scores n t :
  indexed_by (dependences (scores (tabulate n n t) n)) n (share n (row_sum n t)).
Proof.
  unfold scores. cbn [dependences].
  rewrite sum_axis1_tabulate. fold (row_sum n t).
  rewrite normalized_map_seq. apply dict_of_map_seq.
Qed.

(** ** The two transforms in tabulated form *)

Lemma heat_transform_prepared matf g k :
  let n := length (nx.nodes g) in
  heat_transform matf (prepared g) k
  = expm matf (tabulate n n (fun r c => fmul k (fsub (inflow g r c) (delta r c)))).
Proof.
  intros n. unfold heat_transform. rewrite prepared_size. fold n.
  rewrite prepared_tabulate. fold n. unfold sp.eye.
  now rewrite sub_tabulate, scal_tabulate.
Qed.

Lemma pwp_transform_prepared sp matf g k :
  let n := length (nx.nodes g) in
  let E := expm matf (tabulate n n (fun r c => fmul k (inflow g r c))) in
  pwp_transform sp matf (prepared g) k
  = tabulate n n (fun r c => fdiv (fsub (entry E r c) (delta r c)) (expm1 sp k)).
Proof.
  intros n E. unfold pwp_transform. rewrite prepared_size. fold n.
  rewrite prepared_tabulate. fold n. rewrite scal_tabulate.
  change (expm matf _) with E.
  rewrite (square_as_tabulate n E) at 1
    by (apply expm_square, square_tabulate).
  unfold sp.eye. now rewrite sub_tabulate, div_tabulate.
Qed.

Lemma heat_transform_square matf g k :
  square (length (nx.nodes g)) (heat_transform matf (prepared g) k).
Proof.
  rewrite heat_transform_prepared. apply expm_square, square_tabulate.
Qed.

(** The result of a call on a graph that passes the type test, with the
    transform in tabulated form. *)
Lemma heatkernel_scores sp matf G g k w :
  store w !! G = Some g ->
  ~ exact_multigraph (nx.type g) ->
  let n := length (nx.nodes g) in
  let T := heat_transform matf (prepared g) k in
  heatkernel (installed sp matf) G k w
  = (inr (scores (tabulate n n (entry T)) n), after_call G g w).
Proof.
  intros Hg Hty n T. rewrite (heatkernel_run sp matf G g k w Hg Hty).
  rewrite prepared_size. fold n. fold T.
  now rewrite <- (square_as_tabulate n T (heat_transform_square matf g k)).
Qed.

Lemma pwp_scores sp matf G g k w :
  store w !! G = Some g ->
  ~ exact_multigraph (nx.type g) ->
  let n := length (nx.nodes g) in
  let E := expm matf (tabulate n n (fun r c => fmul k (inflow g r c))) in
  pwp (installed sp matf) G k w
  = (inr (scores
            (tabulate n n
               (fun r c => fdiv (fsub (entry E r c) (delta r c)) (expm1 sp k)))
            n),
     after_call G g w).
Proof.
  intros Hg Hty n E. rewrite (pwp_run sp matf G g k w Hg Hty).
  rewrite prepared_size. fold n.
  now rewrite pwp_transform_prepared.
Qed.

Lemma multigraph_class_of_exact c :
  exact_multigraph c -> nx.class_is_multigraph c = true.
Proof. intros [-> | ->]; reflexivity. Qed.

Lemma simple_not_exact c :
  nx.class_is_multigraph c = false -> ~ exact_multigraph c.
Proof.
  intros H Hex. apply multigraph_class_of_exact in Hex. congruence.
Qed.

Lemma sum_foldr (l : vector) : sp.sum l = foldr fadd f0 l.
Proof.
  induction l as [|x l IH]; [reflexivity |]. rewrite sum_cons, IH. reflexivity.
Qed.

Lemma sum_big_sum n f : sp.sum (map f (seq 0 n)) = Spec.big_sum n f.
Proof.
  rewrite sum_foldr. unfold Spec.big_sum.
  induction (seq 0 n) as [|i l IH]; simpl; congruence.
Qed.

Lemma delta_identity r c : delta r c = Spec.identity r c.
Proof.
  unfold delta, Spec.identity. destruct (Nat.eqb_spec r c).
  - now rewrite decide_True.
  - now rewrite decide_False.
Qed.

Lemma share_normalize n raw i : share n raw i = Spec.normalize n raw i.
Proof. unfold share, Spec.normalize. now rewrite sum_big_sum. Qed.

Lemma col_sum_reduce n T c : col_sum n (entry T) c = Spec.reduce_axis0 n T c.
Proof. apply sum_big_sum. Qed.

Lemma row_sum_reduce n T r : row_sum n (entry T) r = Spec.reduce_axis1 n T r.
Proof. apply sum_big_sum. Qed.

(** Shares of pointwise equal raw vectors. *)
Lemma share_ext n raw raw' i :
  (forall t, t < n -> raw t = raw' t) -> i < n -> share n raw i = share n raw' i.
Proof.
  intros H Hi. unfold share. rewrite (H i Hi). f_equal. f_equal.
  now apply map_seq_ext.
Qed.

Lemma spec_scores n T r :
  indexed_by (influences r) n (share n (col_sum n (entry T))) ->
  indexed_by (dependences r) n (share n (row_sum n (entry T))) ->
  indexed_by (influences r) n (Spec.normalize n (Spec.reduce_axis0 n T))
  /\ indexed_by (dependences r) n (Spec.normalize n (Spec.reduce_axis1 n T)).
Proof.
  intros Hf Hd. split.
  - apply (indexed_by_ext _ _ _ _ Hf). intros i Hi.
    rewrite <- share_normalize. apply share_ext; [| assumption].
    intros t _. apply col_sum_reduce.
  - apply (indexed_by_ext _ _ _ _ Hd). intros i Hi.
    rewrite <- share_normalize. apply share_ext; [| assumption].
    intros t _. apply row_sum_reduce.
Qed.

Lemma col_sum_ext n t t' c :
  (forall r, r < n -> t r c = t' r c) -> col_sum n t c = col_sum n t' c.
Proof. intros H. unfold col_sum. f_equal. now apply map_seq_ext. Qed.

Lemma row_sum_ext n t t' r :
  (forall c, c < n -> t r c = t' r c) -> row_sum n t r = row_sum n t' r.
Proof. intros H. unfold row_sum. f_equal. now apply map_seq_ext. Qed.

(** The dictionaries built from a tabulated transform are the normalized
    reductions of the specification. *)
Lemma scores_refine n t T :
  T = tabulate n n t ->
  indexed_by (influences (scores (tabulate n n t) n)) n
    (Spec.normalize n (Spec.reduce_axis0 n T))
  /\ indexed_by (dependences (scores (tabulate n n t) n)) n
    (Spec.normalize n (Spec.reduce_axis1 n T)).
Proof.
  intros ->. apply spec_scores.
  - apply (indexed_by_ext _ _ _ _ (influences_scores n t)). intros i Hi.
    apply share_ext; [| assumption]. intros c Hc. apply col_sum_ext.
    intros r Hr. symmetry. now apply entry_tabulate.
  - apply (indexed_by_ext _ _ _ _ (dependences_scores n t)). intros i Hi.
    apply share_ext; [| assumption]. intros r Hr. apply row_sum_ext.
    intros c Hc. symmetry. now apply entry_tabulate.
Qed.

Lemma inflow_directed g r c :
  nx.class_is_directed (nx.type g) = true -> inflow g r c = Spec.At g r c.
Proof.
  intros Hd. unfold inflow, Spec.At, Spec.A, directed_form. now rewrite Hd.
Qed.

Lemma world_of_lookup g : store (world_of g) !! G0 = Some g.
Proof. apply lookup_singleton_eq. Qed.

(** ** The type test and the store *)

Lemma heatkernel_rejects sp matf G g k w :
  store w !! G = Some g ->
  exact_multigraph (nx.type g) ->
  heatkernel (installed sp matf) G k w
  = (inl (Exception "heatkernel() not defined for graphs with multiedges."), w).
Proof.
  intros Hg Hty. unfold heatkernel, mbind, M_bind, bind, import, type_of, ret.
  cbn [installed scipy scipy_linalg scipy_linalg_matfuncs].
  rewrite Hg. cbn [fmap option_fmap option_map].
  now rewrite (type_test_true _ Hty).
Qed.

Lemma pwp_rejects sp matf G g k w :
  store w !! G = Some g ->
  exact_multigraph (nx.type g) ->
  pwp (installed sp matf) G k w
  = (inl (Exception "pwp() not defined for graphs with multiedges."), w).
Proof.
  intros Hg Hty. unfold pwp, mbind, M_bind, bind, import, type_of, ret.
  cbn [installed scipy scipy_linalg scipy_linalg_matfuncs].
  rewrite Hg. cbn [fmap option_fmap option_map].
  now rewrite (type_test_true _ Hty).
Qed.

Lemma type_test_none :
  type_is None nx.MultiGraph || type_is None nx.MultiDiGraph = false.
Proof. reflexivity. Qed.

Lemma heatkernel_no_graph sp matf G k w :
  store w !! G = None ->
  heatkernel (installed sp matf) G k w = (inl AttributeError, w).
Proof.
  intros Hg. unfold heatkernel, mbind, M_bind, bind, import, type_of, ret,
    is_directed, mbind, M_bind, bind, deref.
  cbn [installed scipy scipy_linalg scipy_linalg_matfuncs].
  rewrite Hg. cbn [fmap option_fmap option_map].
  rewrite type_test_none. now rewrite Hg.
Qed.

Lemma pwp_no_graph sp matf G k w :
  store w !! G = None ->
  pwp (installed sp matf) G k w = (inl AttributeError, w).
Proof.
  intros Hg. unfold pwp, mbind, M_bind, bind, import, type_of, ret,
    is_directed, mbind, M_bind, bind, deref.
  cbn [installed scipy scipy_linalg scipy_linalg_matfuncs].
  rewrite Hg. cbn [fmap option_fmap option_map].
  rewrite type_test_none. now rewrite Hg.
Qed.

Lemma exact_multigraph_dec c : {exact_multigraph c} + {~ exact_multigraph c}.
Proof.
  unfold exact_multigraph.
  destruct (decide (c = nx.MultiGraph)); [left; tauto |].
  destruct (decide (c = nx.MultiDiGraph)); [left; tauto | right; tauto].
Qed.

Lemma after_call_step G g w :
  store w !! G = Some g -> store_step G w (after_call G g w).
Proof.
  intros Hg. unfold after_call.
  destruct (nx.class_is_directed (nx.type g)); [now left |].
  right. exists g. split; [assumption | reflexivity].
Qed.

Lemma heatkernel_store env G k w : store_step G w (heatkernel env G k w).2.
Proof.
  destruct env as [[sp |] [|] [matf |]]; try (now left).
  change (Build_runtime (Some sp) true (Some matf)) with (installed sp matf).
  destruct (store w !! G) as [g |] eqn:Hg.
  - destruct (exact_multigraph_dec (nx.type g)) as [Hty | Hty].
    + rewrite (heatkernel_rejects _ _ _ _ _ _ Hg Hty). now left.
    + rewrite (heatkernel_run _ _ _ _ _ _ Hg Hty). now apply after_call_step.
  - rewrite (heatkernel_no_graph _ _ _ _ _ Hg). now left.
Qed.

Lemma pwp_store env G k w : store_step G w (pwp env G k w).2.
Proof.
  destruct env as [[sp |] [|] [matf |]]; try (now left).
  change (Build_runtime (Some sp) true (Some matf)) with (installed sp matf).
  destruct (store w !! G) as [g |] eqn:Hg.
  - destruct (exact_multigraph_dec (nx.type g)) as [Hty | Hty].
    + rewrite (pwp_rejects _ _ _ _ _ _ Hg Hty). now left.
    + rewrite (pwp_run _ _ _ _ _ _ Hg Hty). now apply after_call_step.
  - rewrite (pwp_no_graph _ _ _ _ _ Hg). now left.
Qed.

Lemma fresh_unbound (m : gmap loc nx.graph) : m !! fresh (dom m) = None.
Proof. apply not_elem_of_dom, is_fresh. Qed.

Lemma store_step_frame G w w' :
  store_step G w w' -> store w' !! G = store w !! G /\ store w ⊆ store w'.
Proof.
  intros [-> | [g [Hg ->]]]; [split; reflexivity |]. split.
  - apply lookup_insert_ne. intros Heq.
    pose proof (fresh_unbound (store w)) as Hfresh. congruence.
  - apply insert_subseteq, fresh_unbound.
Qed.

Lemma road_network_passes : ~ exact_multigraph (nx.type road_network).
Proof. intros [H | H]; discriminate H. Qed.

Lemma after_call_log G g w :
  exists D, last (log (after_call G g w)) = Some (AdjacencyMatrix D).
Proof.
  unfold after_call. destruct (nx.class_is_directed (nx.type g)); cbn [log].
  - exists G. apply last_snoc.
  - eexists. apply last_snoc.
Qed.

Lemma named_digraph_passes : ~ exact_multigraph (nx.type named_digraph).
Proof. intros [H | H]; discriminate H. Qed.

(** ** Special values *)

Lemma zero_compare : (0 ?= 0)%Qc = Eq.
Proof. reflexivity. Qed.

Lemma fdiv_zero_not_finite x : is_finite (fdiv x f0) = false.
Proof.
  destruct x as [a | | |]; unfold f0, fdiv; rewrite ?zero_compare;
    try reflexivity.
  unfold inf_of_sign. now destruct (a ?= 0)%Qc.
Qed.

Lemma fadd_not_finite_l x y : is_finite x = false -> is_finite (fadd x y) = false.
Proof. destruct x, y; simpl; congruence. Qed.

Lemma fadd_not_finite_r x y : is_finite y = false -> is_finite (fadd x y) = false.
Proof. rewrite fadd_comm. apply fadd_not_finite_l. Qed.

Lemma sum_not_finite (l : vector) x :
  In x l -> is_finite x = false -> is_finite (sp.sum l) = false.
Proof.
  induction l as [|y l IH]; intros Hin Hx; [destruct Hin |].
  rewrite sum_cons. destruct Hin as [-> | Hin].
  - now apply fadd_not_finite_l.
  - apply fadd_not_finite_r. now apply IH.
Qed.

Lemma fdiv_not_finite x y :
  is_finite x = false -> is_finite y = false -> fdiv x y = NaN.
Proof. destruct x, y; simpl; congruence. Qed.

(** The sum of a non-empty family of values that are not finite. *)
Lemma sum_family_not_finite n (f : nat -> float64) i :
  i < n -> (forall t, t < n -> is_finite (f t) = false) ->
  is_finite (sp.sum (map f (seq 0 n))) = false.
Proof.
  intros Hi Hf. apply (sum_not_finite _ (f i)).
  - apply in_map, in_seq. lia.
  - now apply Hf.
Qed.

(** Every share is [nan] when no entry of the transform is finite. *)
Lemma share_nan n t :
  (forall r c, r < n -> c < n -> is_finite (t r c) = false) ->
  forall i, i < n ->
    share n (col_sum n t) i = NaN /\ share n (row_sum n t) i = NaN.
Proof.
  intros Ht i Hi.
  assert (Hcol : forall c, c < n -> is_finite (col_sum n t c) = false).
  { intros c Hc. apply (sum_family_not_finite n _ i Hi). intros r Hr. now apply Ht. }
  assert (Hrow : forall r, r < n -> is_finite (row_sum n t r) = false).
  { intros r Hr. apply (sum_family_not_finite n _ i Hi). intros c Hc. now apply Ht. }
  split; apply fdiv_not_finite.
  - now apply Hcol.
  - apply (sum_family_not_finite n _ i Hi). exact Hcol.
  - now apply Hrow.
  - apply (sum_family_not_finite n _ i Hi). exact Hrow.
Qed.

Lemma nan_scores n t :
  (forall r c, r < n -> c < n -> is_finite (t r c) = false) ->
  indexed_by (influences (scores (tabulate n n t) n)) n (fun _ => NaN)
  /\ indexed_by (dependences (scores (tabulate n n t) n)) n (fun _ => NaN).
Proof.
  intros Ht. split.
  - apply (indexed_by_ext _ _ _ _ (influences_scores n t)).
    intros i Hi. apply (share_nan n t Ht i Hi).
  - apply (indexed_by_ext _ _ _ _ (dependences_scores n t)).
    intros i Hi. apply (share_nan n t Ht i Hi).
Qed.

Lemma path4_passes : ~ exact_multigraph (nx.type path4).
Proof. intros [H | H]; discriminate H. Qed.

(** ** Uniform scores *)

Lemma Qc_of_nat_S n : Qc_of_nat (S n) = (Qc_of_nat n + 1)%Qc.
Proof.
  apply Qc_is_canon. unfold Qc_of_nat, Qcplus, Q2Qc. cbn [this].
  rewrite !Qred_correct, Nat2Z.inj_succ. unfold Z.succ.
  rewrite inject_Z_plus. reflexivity.
Qed.

Lemma Qc_of_nat_nonzero n : n <> 0 -> Qc_of_nat n <> 0%Qc.
Proof.
  intros Hn H. unfold Qc_of_nat in H. apply Q2Qc_eq_iff in H.
  unfold Qeq in H. simpl in H. lia.
Qed.

Lemma sum_zeros (l : list nat) : sp.sum (map (fun _ => f0) l) = f0.
Proof.
  induction l as [|i l IH]; [reflexivity |].
  cbn [map]. now rewrite sum_cons, IH, fadd_0_l.
Qed.

Lemma sum_const n a :
  sp.sum (map (fun _ => Fin a) (seq 0 n)) = Fin (Qc_of_nat n * a)%Qc.
Proof.
  induction n as [|n IH].
  - cbn. f_equal. symmetry. apply Qcmult_0_l.
  - rewrite seq_S, map_app, Nat.add_0_l. cbn [map].
    rewrite sum_snoc, IH, Qc_of_nat_S. cbn [fadd]. f_equal. ring.
Qed.

Lemma sum_indicator n c (a : float64) :
  c < n ->
  sp.sum (map (fun r => if Nat.eqb r c then a else f0) (seq 0 n)) = a.
Proof.
  induction n as [|n IH]; intros Hc; [lia |].
  rewrite seq_S, map_app, Nat.add_0_l. cbn [map]. rewrite sum_snoc.
  destruct (Nat.eqb_spec n c) as [-> | Hne].
  - rewrite (map_seq_ext _ (fun _ => f0)).
    + now rewrite sum_zeros, fadd_0_l.
    + intros r Hr. destruct (Nat.eqb_spec r c); [lia | reflexivity].
  - rewrite IH by lia. apply fadd_0_r.
Qed.

Lemma fdiv_finite a b : b <> 0%Qc -> fdiv (Fin a) (Fin b) = Fin (a / b)%Qc.
Proof.
  intros Hb. unfold fdiv. destruct (b ?= 0)%Qc eqn:Hcmp; try reflexivity.
  apply Qceq_alt in Hcmp. contradiction.
Qed.

(** A transform [a I] with [a] finite and not zero gives every node the
    score [1/n]. *)
Lemma uniform_shares n (a : Qc) t :
  a <> 0%Qc ->
  (forall r c, r < n -> c < n -> t r c = if Nat.eqb r c then Fin a else f0) ->
  forall i, i < n ->
    share n (col_sum n t) i = one_over n /\ share n (row_sum n t) i = one_over n.
Proof.
  intros Ha Ht i Hi.
  assert (Hn : Qc_of_nat n <> 0%Qc) by (apply Qc_of_nat_nonzero; lia).
  assert (Hcol : forall c, c < n -> col_sum n t c = Fin a).
  { intros c Hc. unfold col_sum.
    rewrite (map_seq_ext _ (fun r => if Nat.eqb r c then Fin a else f0))
      by (intros r Hr; now apply Ht).
    now apply sum_indicator. }
  assert (Hrow : forall r, r < n -> row_sum n t r = Fin a).
  { intros r Hr. unfold row_sum.
    rewrite (map_seq_ext _ (fun c => if Nat.eqb c r then Fin a else f0))
      by (intros c Hc; rewrite Nat.eqb_sym; now apply Ht).
    now apply sum_indicator. }
  assert (Hshare : fdiv (Fin a) (Fin (Qc_of_nat n * a)%Qc) = one_over n).
  { rewrite fdiv_finite.
    - unfold one_over. f_equal. field. split; assumption.
    - intros H. apply Qcmult_integral in H. tauto. }
  unfold share. split.
  - rewrite (Hcol i Hi), (map_seq_ext _ (fun _ => Fin a)) by exact Hcol.
    now rewrite sum_const.
  - rewrite (Hrow i Hi), (map_seq_ext _ (fun _ => Fin a)) by exact Hrow.
    now rewrite sum_const.
Qed.

Lemma uniform_scores n (a : Qc) t :
  a <> 0%Qc ->
  (forall r c, r < n -> c < n -> t r c = if Nat.eqb r c then Fin a else f0) ->
  indexed_by (influences (scores (tabulate n n t) n)) n (fun _ => one_over n)
  /\ indexed_by (dependences (scores (tabulate n n t) n)) n
       (fun _ => one_over n).
Proof.
  intros Ha Ht. split.
  - apply (indexed_by_ext _ _ _ _ (influences_scores n t)).
    intros i Hi. apply (uniform_shares n a t Ha Ht i Hi).
  - apply (indexed_by_ext _ _ _ _ (dependences_scores n t)).
    intros i Hi. apply (uniform_shares n a t Ha Ht i Hi).
Qed.

(** The weights of a graph are finite. *)
Lemma sum_of_finite {A} (h : A -> Qc) (l : list A) :
  exists q, sp.sum (map (fun e => Fin (h e)) l) = Fin q.
Proof.
  induction l as [|e l [q IH]]; [now exists 0%Qc |].
  cbn [map]. rewrite sum_cons, IH. cbn. eauto.
Qed.

Lemma weight_finite g u v : exists q, nx.weight g u v = Fin q.
Proof. unfold nx.weight. apply sum_of_finite. Qed.

Lemma one_ne_zero : 1%Qc <> 0%Qc.
Proof. discriminate. Qed.

Lemma entry_eye n r c : r < n -> c < n -> entry (sp.eye n n) r c = delta r c.
Proof. intros Hr Hc. unfold sp.eye. now rewrite entry_tabulate. Qed.

Lemma vector_eqb_eq u v : vector_eqb u v = true -> u = v.
Proof.
  revert v. induction u as [|x u IH]; intros [|y v]; simpl; try discriminate.
  - reflexivity.
  - intros H. apply andb_true_iff in H. destruct H as [Hx Hu].
    f_equal; [now apply float_eqb_eq | now apply IH].
Qed.

Lemma matrix_eqb_eq A B : matrix_eqb A B = true -> A = B.
Proof.
  revert B. induction A as [|u A IH]; intros [|v B]; simpl; try discriminate.
  - reflexivity.
  - intros H. apply andb_true_iff in H. destruct H as [Hu HA].
    f_equal; [now apply vector_eqb_eq | now apply IH].
Qed.

(** ** Graphs without edges *)

Lemma inflow_edgeless g r c : nx.edges g = [] -> inflow g r c = f0.
Proof.
  intros He. unfold inflow, nx.weight, directed_form.
  destruct (nx.class_is_directed (nx.type g)); cbn [nx.edges nx.to_directed_graph];
    rewrite He; reflexivity.
Qed.

Lemma fdiv_zero_cases s : fdiv f0 s = f0 \/ fdiv f0 s = NaN.
Proof.
  destruct s as [b | | |]; cbn; auto.
  destruct (b ?= 0)%Qc; auto; left; unfold f0; f_equal; unfold Qcdiv;
    apply Qcmult_0_l.
Qed.

Lemma fsub_delta r c : fsub (delta r c) (delta r c) = f0.
Proof.
  unfold delta, f0, f1. destruct (Nat.eqb r c); cbn; f_equal;
    apply Qcplus_opp_r.
Qed.

(** An all-zero transform: both reductions sum to zero, and every share is
    [0/0]. *)
Lemma zero_scores n t :
  (forall r c, r < n -> c < n -> t r c = f0) ->
  indexed_by (influences (scores (tabulate n n t) n)) n (fun _ => NaN)
  /\ indexed_by (dependences (scores (tabulate n n t) n)) n (fun _ => NaN).
Proof.
  intros Ht.
  assert (Hcol : forall c, c < n -> col_sum n t c = f0).
  { intros c Hc. unfold col_sum.
    rewrite (map_seq_ext _ (fun _ => f0)) by (intros r Hr; now apply Ht).
    apply sum_zeros. }
  assert (Hrow : forall r, r < n -> row_sum n t r = f0).
  { intros r Hr. unfold row_sum.
    rewrite (map_seq_ext _ (fun _ => f0)) by (intros c Hc; now apply Ht).
    apply sum_zeros. }
  split.
  - apply (indexed_by_ext _ _ _ _ (influences_scores n t)). intros i Hi.
    unfold share. rewrite (Hcol i Hi), (map_seq_ext _ (fun _ => f0)) by exact Hcol.
    now rewrite sum_zeros.
  - apply (indexed_by_ext _ _ _ _ (dependences_scores n t)). intros i Hi.
    unfold share. rewrite (Hrow i Hi), (map_seq_ext _ (fun _ => f0)) by exact Hrow.
    now rewrite sum_zeros.
Qed.

Lemma edgeless3_passes : ~ exact_multigraph (nx.type edgeless3).
Proof. intros [H | H]; discriminate H. Qed.

(** ** Normalization *)

Lemma nonzero_finite_inv x :
  nonzero_finite x = true -> exists c, x = Fin c /\ c <> 0%Qc.
Proof.
  destruct x as [q | | |]; simpl; try discriminate.
  intros H. exists q. split; [reflexivity |].
  intros ->. unfold Qc_eq_bool in H.
  destruct (Qc_eq_dec 0%Qc 0%Qc); [discriminate | contradiction].
Qed.

Lemma fadd_finite_inv x y c :
  fadd x y = Fin c -> exists a b, x = Fin a /\ y = Fin b /\ c = (a + b)%Qc.
Proof.
  destruct x as [a | | |], y as [b | | |]; simpl; try discriminate.
  intros [= <-]. eauto.
Qed.

Lemma sum_vdiv (l : vector) s c :
  c <> 0%Qc -> sp.sum l = Fin s -> sp.sum (sp.vdiv l (Fin c)) = Fin (s / c)%Qc.
Proof.
  intros Hc. revert s. induction l as [|x l IH]; intros s Hs.
  - cbn in Hs. injection Hs as <-. cbn. f_equal. unfold Qcdiv.
    symmetry. apply Qcmult_0_l.
  - rewrite sum_cons in Hs.
    destruct (fadd_finite_inv _ _ _ Hs) as [a [b [-> [Hb ->]]]].
    cbn [sp.vdiv map]. rewrite sum_cons. fold (sp.vdiv l (Fin c)).
    rewrite (IH b Hb), fdiv_finite by assumption. cbn. f_equal. now field.
Qed.







Lemma pwp_transform_square sp matf g k :
  square (length (nx.nodes g)) (pwp_transform sp matf (prepared g) k).
Proof. rewrite pwp_transform_prepared. apply square_tabulate. Qed.

Lemma di_path3_passes : ~ exact_multigraph (nx.type di_path3).
Proof. intros [H | H]; discriminate H. Qed.

Lemma sum_axis0_col_sum n t :
  sp.sum_axis0 (tabulate n n t) = map (col_sum n t) (seq 0 n).
Proof. apply sum_axis0_tabulate. Qed.

Lemma sum_axis1_row_sum n t :
  sp.sum_axis1 (tabulate n n t) = map (row_sum n t) (seq 0 n).
Proof. apply sum_axis1_tabulate. Qed.

Lemma Fin_inj (a b : Qc) : Fin a = Fin b -> a = b.
Proof. intros H. now injection H. Qed.

Lemma map_const_seq {A} (x : A) n : map (fun _ => x) (seq 0 n) = repeat x n.
Proof.
  apply (nth_ext _ _ x x).
  - now rewrite length_map, length_seq, repeat_length.
  - intros i Hi. rewrite length_map, length_seq in Hi.
    rewrite nth_map_seq by assumption. now rewrite nth_repeat.
Qed.

(** * The claims *)

(** C1, as the code has it: for every graph that passes the type test, with
    [expm1(0) = 0], [pwp] called with [k = 0] raises nothing: the division
    of the array by [expm1(0)] is numpy's, which yields [inf] and [nan]
    entries, and the call returns dictionaries in which every score is
    [nan]. *)
Theorem pwp_zero_returns_nan sp matf G g w :
  store w !! G = Some g ->
  ~ exact_multigraph (nx.type g) ->
  expm1 sp f0 = f0 ->
  let n := length (nx.nodes g) in
  exists r w',
    pwp (installed sp matf) G f0 w = (inr r, w')
    /\ indexed_by (influences r) n (fun _ => NaN)
    /\ indexed_by (dependences r) n (fun _ => NaN).
Proof.
  intros Hg Hty Hzero n.
  eexists _, _. split; [apply (pwp_scores _ _ _ _ _ _ Hg Hty) |].
  fold n. apply nan_scores. intros r c _ _.
  rewrite Hzero. apply fdiv_zero_not_finite.
Qed.

Lemma pwp_zero_returns_nan_witness :
  exists r w',
    pwp (taylor_runtime 4) G0 f0 (world_of path4) = (inr r, w')
    /\ indexed_by (influences r) 4 (fun _ => NaN)
    /\ indexed_by (dependences r) 4 (fun _ => NaN).
Proof.
  apply (pwp_zero_returns_nan (taylor_scipy 4) (taylor_matfuncs 4) G0 path4
           (world_of path4)).
  - apply world_of_lookup.
  - intros [H | H]; discriminate H.
  - apply float_eqb_eq. vm_compute. reflexivity.
Defined.

(** C1 fails as stated: on [nx.path_graph(4)], [pwp] with [k = 0] raises no
    error; it returns, and the score of every node is [nan]. *)
Lemma pwp_zero_raises_nothing :
  exists r w',
    pwp (taylor_runtime 4) G0 f0 (world_of path4) = (inr r, w')
    /\ map (fun i => influences r !! PyInt i) [0; 1; 2; 3]%Z
       = [Some NaN; Some NaN; Some NaN; Some NaN]
    /\ map (fun i => dependences r !! PyInt i) [0; 1; 2; 3]%Z
       = [Some NaN; Some NaN; Some NaN; Some NaN].
Proof.
  eexists _, _. split.
  { apply (pwp_run (taylor_scipy 4) (taylor_matfuncs 4) G0 path4 f0 _
             (world_of_lookup _) path4_passes). }
  split; vm_compute; reflexivity.
Qed.

(** C2, as the code has it: on a graph with a non-empty node set and no
    edges that passes the type test, neither function raises.  With
    [expm(0) = I] and [k] finite, [pwp]'s transform is all zero or all
    [nan], its reductions sum to zero or [nan], and numpy's division returns
    [nan] for every score.  [heatkernel]'s transform is [expm(-k I)], which
    is not zero: when it is [a I] with [a] finite and not zero, each raw
    reduction vector is [(a, ..., a)], its sum is not zero, and every node
    gets one and the same finite score, as influence and as dependence. *)
Theorem edgeless_graph_not_rejected sp matf G g (q : Qc) w :
  store w !! G = Some g ->
  ~ exact_multigraph (nx.type g) ->
  nx.edges g = [] ->
  nx.nodes g <> [] ->
  let n := length (nx.nodes g) in
  let Th := heat_transform matf (prepared g) (Fin q) in
  expm matf (zeros n) = sp.eye n n ->
  (exists r w',
      pwp (installed sp matf) G (Fin q) w = (inr r, w')
      /\ indexed_by (influences r) n (fun _ => NaN)
      /\ indexed_by (dependences r) n (fun _ => NaN))
  /\ (exists r w',
         heatkernel (installed sp matf) G (Fin q) w = (inr r, w')
         /\ forall a : Qc,
             a <> 0%Qc ->
             expm matf (sp.scal (Fin q) (sp.sub (zeros n) (sp.eye n n)))
             = sp.scal (Fin a) (sp.eye n n) ->
             sp.sum_axis0 Th = repeat (Fin a) n
             /\ sp.sum_axis1 Th = repeat (Fin a) n
             /\ sp.sum (sp.sum_axis0 Th) <> f0
             /\ sp.sum (sp.sum_axis1 Th) <> f0
             /\ exists v,
                 is_finite v = true
                 /\ indexed_by (influences r) n (fun _ => v)
                 /\ indexed_by (dependences r) n (fun _ => v)).
Proof.
  intros Hg Hty He Hnodes n Th Hexpm. split.
  - eexists _, _. split; [apply (pwp_scores _ _ _ _ _ _ Hg Hty) |].
    fold n.
    rewrite (tabulate_ext n n (fun r c => fmul (Fin q) (inflow g r c))
               (fun _ _ => f0)).
    + fold (zeros n). rewrite Hexpm.
      destruct (fdiv_zero_cases (expm1 sp (Fin q))) as [Hz | Hz].
      * apply zero_scores. intros r c Hr Hc.
        now rewrite entry_eye, fsub_delta.
      * apply nan_scores. intros r c Hr Hc.
        now rewrite entry_eye, fsub_delta, Hz.
    + intros r c _ _. rewrite inflow_edgeless by assumption.
      unfold f0. cbn. f_equal. apply Qcmult_0_r.
  - eexists _, _. split; [apply (heatkernel_scores _ _ _ _ _ _ Hg Hty) |].
    fold n. fold Th. intros a Ha HaI.
    assert (HTh : Th = tabulate n n
                         (fun r c => if Nat.eqb r c then Fin a else f0)).
    { unfold Th. rewrite heat_transform_prepared. fold n.
      rewrite (tabulate_ext n n _
                 (fun r c => fmul (Fin q) (fsub f0 (delta r c))))
        by (intros r' c' _ _; now rewrite inflow_edgeless).
      unfold zeros, sp.eye in HaI. rewrite sub_tabulate, !scal_tabulate in HaI.
      unfold delta. rewrite HaI. apply tabulate_ext. intros r c _ _.
      unfold f0, f1. destruct (Nat.eqb r c); cbn; f_equal.
      - apply Qcmult_1_r.
      - apply Qcmult_0_r. }
    assert (Hn : n <> 0) by (unfold n; now destruct (nx.nodes g)).
    assert (Hcols : sp.sum_axis0 Th = repeat (Fin a) n).
    { rewrite HTh, sum_axis0_col_sum, <- map_const_seq.
      apply map_seq_ext. intros c Hc. now apply sum_indicator. }
    assert (Hrows : sp.sum_axis1 Th = repeat (Fin a) n).
    { rewrite HTh, sum_axis1_row_sum, <- map_const_seq.
      apply map_seq_ext. intros r Hr. unfold row_sum.
      rewrite (map_seq_ext _ (fun c => if Nat.eqb c r then Fin a else f0))
        by (intros c Hc; now rewrite Nat.eqb_sym).
      now apply sum_indicator. }
    assert (Hsum : sp.sum (repeat (Fin a) n) <> f0).
    { rewrite <- map_const_seq, sum_const. intros H. apply Fin_inj in H.
      apply Qcmult_integral in H. destruct H as [H | H]; [| contradiction].
      now apply (Qc_of_nat_nonzero n). }
    rewrite Hcols, Hrows. repeat split; try assumption.
    exists (one_over n). split; [reflexivity |].
    apply (uniform_scores n a); [assumption |].
    intros r c Hr Hc. rewrite HTh. now apply entry_tabulate.
Qed.

Lemma edgeless_graph_not_rejected_witness :
  let Th := heat_transform (taylor_matfuncs 4) (prepared edgeless3) f1 in
  (exists r w',
      pwp (taylor_runtime 4) G0 f1 (world_of edgeless3) = (inr r, w')
      /\ indexed_by (influences r) 3 (fun _ => NaN)
      /\ indexed_by (dependences r) 3 (fun _ => NaN))
  /\ (exists r w',
         heatkernel (taylor_runtime 4) G0 f1 (world_of edgeless3) = (inr r, w')
         /\ sp.sum_axis0 Th = repeat (Fin (Q2Qc (3 # 8))) 3
         /\ sp.sum_axis1 Th = repeat (Fin (Q2Qc (3 # 8))) 3
         /\ sp.sum (sp.sum_axis0 Th) <> f0
         /\ sp.sum (sp.sum_axis1 Th) <> f0
         /\ exists v,
             is_finite v = true
             /\ indexed_by (influences r) 3 (fun _ => v)
             /\ indexed_by (dependences r) 3 (fun _ => v)).
Proof.
  intros Th.
  destruct (edgeless_graph_not_rejected (taylor_scipy 4) (taylor_matfuncs 4) G0
              edgeless3 1%Qc (world_of edgeless3))
    as [Hpwp [r [w' [Hrun Hheat]]]].
  - apply world_of_lookup.
  - intros [H | H]; discriminate H.
  - reflexivity.
  - discriminate.
  - apply matrix_eqb_eq. vm_compute. reflexivity.
  - split; [exact Hpwp |]. exists r, w'. split; [exact Hrun |].
    apply (Hheat (Q2Qc (3 # 8))).
    + discriminate.
    + apply matrix_eqb_eq. vm_compute. reflexivity.
Defined.

(** C2 fails as stated: on the graph with the nodes 0, 1, 2 and no edges,
    with [k = 1], neither function raises; [heatkernel] returns the score
    [1/3] for every node and [pwp] returns [nan] for every node. *)
Lemma edgeless_graph_raises_nothing :
  (exists r w',
      heatkernel (taylor_runtime 4) G0 f1 (world_of edgeless3) = (inr r, w')
      /\ forallb (score_is (influences r) (one_over 3)) [0; 1; 2]%Z = true
      /\ forallb (score_is (dependences r) (one_over 3)) [0; 1; 2]%Z = true)
  /\ (exists r w',
         pwp (taylor_runtime 4) G0 f1 (world_of edgeless3) = (inr r, w')
         /\ forallb (score_is (influences r) NaN) [0; 1; 2]%Z = true
         /\ forallb (score_is (dependences r) NaN) [0; 1; 2]%Z = true).
Proof.
  split.
  - eexists _, _. split.
    { apply (heatkernel_run (taylor_scipy 4) (taylor_matfuncs 4) G0 edgeless3
               f1 _ (world_of_lookup _) edgeless3_passes). }
    split; vm_compute; reflexivity.
  - eexists _, _. split.
    { apply (pwp_run (taylor_scipy 4) (taylor_matfuncs 4) G0 edgeless3
               f1 _ (world_of_lookup _) edgeless3_passes). }
    split; vm_compute; reflexivity.
Qed.

(** C3, as the code has it: for every graph that passes the type test, the
    key set of [influences] and of [dependences] is the set of matrix
    indices [0 .. n-1], [n] the number of nodes, for both functions: the
    dictionaries are built over [range(j)], and no index is translated back
    to a node. *)
Theorem result_keys_are_indices sp matf G g k w :
  store w !! G = Some g ->
  ~ exact_multigraph (nx.type g) ->
  let n := length (nx.nodes g) in
  (exists r w',
      heatkernel (installed sp matf) G k w = (inr r, w')
      /\ dom (influences r) = indices n /\ dom (dependences r) = indices n)
  /\ (exists r w',
         pwp (installed sp matf) G k w = (inr r, w')
         /\ dom (influences r) = indices n /\ dom (dependences r) = indices n).
Proof.
  intros Hg Hty n. split.
  - eexists _, _. split; [apply (heatkernel_scores _ _ _ _ _ _ Hg Hty) |].
    fold n. split.
    + apply (indexed_by_dom _ _ _ (influences_scores n _)).
    + apply (indexed_by_dom _ _ _ (dependences_scores n _)).
  - eexists _, _. split; [apply (pwp_scores _ _ _ _ _ _ Hg Hty) |].
    fold n. split.
    + apply (indexed_by_dom _ _ _ (influences_scores n _)).
    + apply (indexed_by_dom _ _ _ (dependences_scores n _)).
Qed.

Lemma result_keys_are_indices_witness :
  (exists r w',
      heatkernel (taylor_runtime 4) G0 f1 (world_of named_digraph) = (inr r, w')
      /\ dom (influences r) = indices 2 /\ dom (dependences r) = indices 2)
  /\ (exists r w',
         pwp (taylor_runtime 4) G0 f1 (world_of named_digraph) = (inr r, w')
         /\ dom (influences r) = indices 2 /\ dom (dependences r) = indices 2).
Proof.
  apply (result_keys_are_indices (taylor_scipy 4) (taylor_matfuncs 4) G0
           named_digraph f1 (world_of named_digraph)).
  - apply world_of_lookup.
  - intros [H | H]; discriminate H.
Defined.

(** C3 fails as stated: on the directed graph with the nodes ['a'] and
    ['b'], the keys of both dictionaries are the integers 0 and 1; the key 0
    is no node of the graph and the node ['a'] is no key. *)
Lemma keys_are_not_nodes :
  exists r w',
    heatkernel (taylor_runtime 4) G0 f1 (world_of named_digraph) = (inr r, w')
    /\ dom (influences r) = indices 2
    /\ dom (dependences r) = indices 2
    /\ PyInt 0 ∈ indices 2
    /\ (PyInt 0 ∉ node_set named_digraph)
    /\ (PyStr "a" ∈ node_set named_digraph)
    /\ (PyStr "a" ∉ indices 2).
Proof.
  eexists _, _. split.
  { apply (heatkernel_scores (taylor_scipy 4) (taylor_matfuncs 4) G0
             named_digraph f1 _ (world_of_lookup _) named_digraph_passes). }
  split; [apply (indexed_by_dom _ _ _ (influences_scores 2 _)) |].
  split; [apply (indexed_by_dom _ _ _ (dependences_scores 2 _)) |].
  split; [apply elem_of_indices; exists 0; split; [lia | reflexivity] |].
  split.
  { unfold node_set. rewrite elem_of_list_to_set, list_elem_of_In. simpl.
    intros [H | [H | []]]; discriminate H. }
  split.
  { unfold node_set. rewrite elem_of_list_to_set, list_elem_of_In. simpl.
    now left. }
  intros H. apply elem_of_indices in H. destruct H as [i [_ H]]. discriminate H.
Qed.

(** C4: for every simple directed graph [g] with transposed adjacency matrix
    [At] of size [n] and every [k], [heatkernel] returns the dictionaries of
    the transform [T = expm(k (At - I))] reduced along axis 0 (influences)
    and along axis 1 (dependences), each reduction divided by its own sum. *)
Theorem heatkernel_refines_spec sp matf G g k w :
  store w !! G = Some g ->
  nx.class_is_directed (nx.type g) = true ->
  nx.class_is_multigraph (nx.type g) = false ->
  let n := length (nx.nodes g) in
  let T := Spec.heat_T matf n (Spec.At g) k in
  exists r w',
    heatkernel (installed sp matf) G k w = (inr r, w')
    /\ indexed_by (influences r) n (Spec.normalize n (Spec.reduce_axis0 n T))
    /\ indexed_by (dependences r) n (Spec.normalize n (Spec.reduce_axis1 n T)).
Proof.
  intros Hg Hdir Hsimple n T.
  eexists _, _. split.
  - apply (heatkernel_scores sp matf G g k w Hg (simple_not_exact _ Hsimple)).
  - fold n. apply scores_refine.
    rewrite heat_transform_prepared. fold n.
    assert (HT : expm matf
                   (tabulate n n
                      (fun r c => fmul k (fsub (inflow g r c) (delta r c))))
                 = T).
    { unfold T, Spec.heat_T. f_equal. apply tabulate_ext. intros r c _ _.
      now rewrite inflow_directed, delta_identity. }
    rewrite HT. apply square_as_tabulate. unfold T, Spec.heat_T.
    apply expm_square, square_tabulate.
Qed.

Lemma heatkernel_refines_spec_witness :
  let n := 3 in
  let T := Spec.heat_T (taylor_matfuncs 4) n (Spec.At di_path3) f1 in
  exists r w',
    heatkernel (taylor_runtime 4) G0 f1 (world_of di_path3) = (inr r, w')
    /\ indexed_by (influences r) n (Spec.normalize n (Spec.reduce_axis0 n T))
    /\ indexed_by (dependences r) n (Spec.normalize n (Spec.reduce_axis1 n T)).
Proof.
  apply (heatkernel_refines_spec (taylor_scipy 4) (taylor_matfuncs 4) G0
           di_path3 f1 (world_of di_path3)).
  - apply world_of_lookup.
  - reflexivity.
  - reflexivity.
Defined.

(** C5: for every simple directed graph [g] with transposed adjacency matrix
    [At] of size [n] and every [k <> 0], [pwp] returns the dictionaries of
    the transform [T = (expm(k At) - I) / (exp(k) - 1)] reduced along axis 0
    and along axis 1, each reduction divided by its own sum.  The source
    takes the denominator from [sp.expm1], which is [exp(k) - 1]. *)
Theorem pwp_refines_spec sp matf (exp : float64 -> float64) G g k w :
  store w !! G = Some g ->
  nx.class_is_directed (nx.type g) = true ->
  nx.class_is_multigraph (nx.type g) = false ->
  k <> f0 ->
  expm1 sp k = fsub (exp k) f1 ->
  let n := length (nx.nodes g) in
  let T := Spec.pwp_T matf exp n (Spec.At g) k in
  exists r w',
    pwp (installed sp matf) G k w = (inr r, w')
    /\ indexed_by (influences r) n (Spec.normalize n (Spec.reduce_axis0 n T))
    /\ indexed_by (dependences r) n (Spec.normalize n (Spec.reduce_axis1 n T)).
Proof.
  intros Hg Hdir Hsimple _ Hexp n T.
  eexists _, _. split.
  - apply (pwp_scores sp matf G g k w Hg (simple_not_exact _ Hsimple)).
  - fold n. apply scores_refine.
    unfold T, Spec.pwp_T. apply tabulate_ext. intros r c _ _.
    rewrite Hexp, delta_identity. do 4 f_equal.
    apply tabulate_ext. intros r' c' _ _. now rewrite inflow_directed.
Qed.

Lemma pwp_refines_spec_witness :
  let n := 3 in
  let T := Spec.pwp_T (taylor_matfuncs 4) (exp_taylor 4) n (Spec.At di_path3) f1
  in
  exists r w',
    pwp (taylor_runtime 4) G0 f1 (world_of di_path3) = (inr r, w')
    /\ indexed_by (influences r) n (Spec.normalize n (Spec.reduce_axis0 n T))
    /\ indexed_by (dependences r) n (Spec.normalize n (Spec.reduce_axis1 n T)).
Proof.
  apply (pwp_refines_spec (taylor_scipy 4) (taylor_matfuncs 4) (exp_taylor 4)
           G0 di_path3 f1 (world_of di_path3)).
  - apply world_of_lookup.
  - reflexivity.
  - reflexivity.
  - discriminate.
  - reflexivity.
Defined.

(** C6, as the code has it: for every graph whose runtime type is exactly
    [nx.MultiGraph] or exactly [nx.MultiDiGraph], with the SciPy imports
    succeeding, both functions raise the exception of the type test and
    leave the world as it was: no call on the graph object is logged (the
    adjacency matrix is not asked for) and no object is created. *)
Theorem exact_multigraph_rejected sp matf G g k w :
  store w !! G = Some g ->
  exact_multigraph (nx.type g) ->
  heatkernel (installed sp matf) G k w
  = (inl (Exception "heatkernel() not defined for graphs with multiedges."), w)
  /\ pwp (installed sp matf) G k w
     = (inl (Exception "pwp() not defined for graphs with multiedges."), w).
Proof.
  intros Hg Hty. split.
  - now apply (heatkernel_rejects sp matf G g).
  - now apply (pwp_rejects sp matf G g).
Qed.

Lemma exact_multigraph_rejected_witness :
  heatkernel (taylor_runtime 4) G0 f1 (world_of multigraph2)
  = (inl (Exception "heatkernel() not defined for graphs with multiedges."),
     world_of multigraph2)
  /\ pwp (taylor_runtime 4) G0 f1 (world_of multigraph2)
     = (inl (Exception "pwp() not defined for graphs with multiedges."),
        world_of multigraph2).
Proof.
  apply (exact_multigraph_rejected (taylor_scipy 4) (taylor_matfuncs 4) G0
           multigraph2 f1 (world_of multigraph2)).
  - apply world_of_lookup.
  - left. reflexivity.
Defined.

(** C6 fails as stated: an instance of a class derived from [nx.MultiGraph]
    permits parallel edges, and has two here, yet neither function raises;
    both go on to the adjacency matrix of its directed copy and return
    scores. *)
Lemma multigraph_subclass_not_rejected :
  nx.class_is_multigraph (nx.type road_network) = true
  /\ has_parallel_edges road_network = true
  /\ (exists r w',
        heatkernel (taylor_runtime 4) G0 f1 (world_of road_network) = (inr r, w')
        /\ log w' = [IsDirected G0; ToDirected G0 2%positive;
                     AdjacencyMatrix 2%positive])
  /\ (exists r w',
        pwp (taylor_runtime 4) G0 f1 (world_of road_network) = (inr r, w')
        /\ log w' = [IsDirected G0; ToDirected G0 2%positive;
                     AdjacencyMatrix 2%positive]).
Proof.
  split; [reflexivity |]. split; [reflexivity |]. split.
  - eexists _, _. split.
    + apply (heatkernel_run (taylor_scipy 4) (taylor_matfuncs 4) G0
               road_network f1 _ (world_of_lookup _) road_network_passes).
    + reflexivity.
  - eexists _, _. split.
    + apply (pwp_run (taylor_scipy 4) (taylor_matfuncs 4) G0
               road_network f1 _ (world_of_lookup _) road_network_passes).
    + reflexivity.
Qed.




(** C8: for every graph on [n] nodes that passes the type test, with
    [expm(0) = I], [heatkernel] called with [k = 0] returns the uniform
    distribution: the influence score and the dependence score of every
    node are [1/n]. *)
Theorem heatkernel_zero_uniform sp matf G g w :
  store w !! G = Some g ->
  ~ exact_multigraph (nx.type g) ->
  let n := length (nx.nodes g) in
  expm matf (zeros n) = sp.eye n n ->
  exists r w',
    heatkernel (installed sp matf) G f0 w = (inr r, w')
    /\ indexed_by (influences r) n (fun _ => one_over n)
    /\ indexed_by (dependences r) n (fun _ => one_over n).
Proof.
  intros Hg Hty n Hexpm.
  eexists _, _. split; [apply (heatkernel_scores _ _ _ _ _ _ Hg Hty) |].
  fold n. apply (uniform_scores n 1%Qc); [apply one_ne_zero |].
  intros r c Hr Hc. rewrite heat_transform_prepared. fold n.
  rewrite (tabulate_ext n n _ (fun _ _ => f0)).
  - fold (zeros n). rewrite Hexpm. now apply entry_eye.
  - intros r' c' _ _. unfold inflow.
    destruct (weight_finite (directed_form g) (node g c') (node g r')) as [q ->].
    unfold delta, f0, f1. destruct (Nat.eqb r' c'); cbn; f_equal;
      apply Qcmult_0_l.
Qed.

Lemma heatkernel_zero_uniform_witness :
  exists r w',
    heatkernel (taylor_runtime 4) G0 f0 (world_of path4) = (inr r, w')
    /\ indexed_by (influences r) 4 (fun _ => one_over 4)
    /\ indexed_by (dependences r) 4 (fun _ => one_over 4).
Proof.
  apply (heatkernel_zero_uniform (taylor_scipy 4) (taylor_matfuncs 4) G0 path4
           (world_of path4)).
  - apply world_of_lookup.
  - intros [H | H]; discriminate H.
  - apply matrix_eqb_eq. vm_compute. reflexivity.
Defined.

(** C9: neither function changes the graph object it is called on, nor any
    other object of the store: after a call, however it ends, the store
    holds at [G] what it held before, and every object of the store before
    the call is in the store after it, unchanged (the directed copy of an
    undirected graph is a new object). *)
Theorem input_graph_not_mutated env G k w :
  (store (heatkernel env G k w).2 !! G = store w !! G
   /\ store w ⊆ store (heatkernel env G k w).2)
  /\ (store (pwp env G k w).2 !! G = store w !! G
      /\ store w ⊆ store (pwp env G k w).2).
Proof.
  split; apply store_step_frame.
  - apply heatkernel_store.
  - apply pwp_store.
Qed.

(** C10: the type test of both functions fires exactly when the runtime
    type of the graph is [nx.MultiGraph] or [nx.MultiDiGraph] itself; and
    there is a graph that permits parallel edges, an instance of a class
    derived from [nx.MultiGraph] with two parallel edges, on which neither
    function raises: both ask for the adjacency matrix and return scores. *)
Theorem rejection_is_by_exact_type sp matf k :
  (forall G g w,
      store w !! G = Some g ->
      ((exists msg, (heatkernel (installed sp matf) G k w).1 = inl (Exception msg))
       <-> exact_multigraph (nx.type g))
      /\ ((exists msg, (pwp (installed sp matf) G k w).1 = inl (Exception msg))
          <-> exact_multigraph (nx.type g)))
  /\ (exists g,
        nx.class_is_multigraph (nx.type g) = true
        /\ has_parallel_edges g = true
        /\ (exists name base, nx.type g = nx.Subclass name base)
        /\ forall G w,
            store w !! G = Some g ->
            (exists r w' D,
                heatkernel (installed sp matf) G k w = (inr r, w')
                /\ last (log w') = Some (AdjacencyMatrix D))
            /\ (exists r w' D,
                   pwp (installed sp matf) G k w = (inr r, w')
                   /\ last (log w') = Some (AdjacencyMatrix D))).
Proof.
  split.
  - intros G g w Hg. split; split.
    + intros [msg Hmsg].
      destruct (exact_multigraph_dec (nx.type g)) as [Hty | Hty]; [assumption |].
      rewrite (heatkernel_run _ _ _ _ _ _ Hg Hty) in Hmsg. discriminate Hmsg.
    + intros Hty. rewrite (heatkernel_rejects _ _ _ _ _ _ Hg Hty). eauto.
    + intros [msg Hmsg].
      destruct (exact_multigraph_dec (nx.type g)) as [Hty | Hty]; [assumption |].
      rewrite (pwp_run _ _ _ _ _ _ Hg Hty) in Hmsg. discriminate Hmsg.
    + intros Hty. rewrite (pwp_rejects _ _ _ _ _ _ Hg Hty). eauto.
  - exists road_network.
    split; [reflexivity |]. split; [reflexivity |]. split; [simpl; eauto |].
    intros G w Hg. split.
    + destruct (after_call_log G road_network w) as [D HD].
      eexists _, _, D. split; [| exact HD].
      apply (heatkernel_run _ _ _ _ _ _ Hg road_network_passes).
    + destruct (after_call_log G road_network w) as [D HD].
      eexists _, _, D. split; [| exact HD].
      apply (pwp_run _ _ _ _ _ _ Hg road_network_passes).
Qed.

(** * Further properties of the two functions *)

(** ** The imports, the type test and the calls on the graph *)

(** X1: the three imports come first, in the order of the source.  When one
    fails, both functions raise [ImportError] with the message of the first
    import that failed, whatever [G] is (a multigraph and an object that is
    no graph included) and whatever [k] is, and the world is left as it
    was. *)
Theorem import_errors_come_first G k w :
  (forall lin matf,
      heatkernel (Build_runtime None lin matf) G k w
      = (inl (ImportError "heatkernel() requires SciPy: http://scipy.org/"), w)
      /\ pwp (Build_runtime None lin matf) G k w
         = (inl (ImportError "pwp() requires SciPy: http://scipy.org/"), w))
  /\ (forall sp matf,
         heatkernel (Build_runtime (Some sp) false matf) G k w
         = (inl (ImportError
                   "heatkernel() requires scipy.linalg: http://scipy.org"), w)
         /\ pwp (Build_runtime (Some sp) false matf) G k w
            = (inl (ImportError
                      "pwp() requires scipy.linalg: http://scipy.org"), w))
  /\ (forall sp,
         heatkernel (Build_runtime (Some sp) true None) G k w
         = (inl (ImportError
                   "heatkernel() requires scipy.linalg.matfuncs: http://scipy.org"),
            w)
         /\ pwp (Build_runtime (Some sp) true None) G k w
            = (inl (ImportError
                      "pwp() requires scipy.linalg.matfuncs: http://scipy.org"),
               w)).
Proof. repeat split. Qed.

Lemma exn_is_raised {A} (e : exn) : exists e', (inl e : exn + A) = inl e'.
Proof. eauto. Qed.

(** X2: the two functions fail on the same inputs and have the same effect:
    in every runtime, for every [G], [k] and world, one raises exactly when
    the other does, and both leave the same world (the same store and the
    same log of calls on graph objects). *)
Theorem same_failures_and_effects env G k w :
  (heatkernel env G k w).2 = (pwp env G k w).2
  /\ ((exists e, (heatkernel env G k w).1 = inl e)
      <-> (exists e, (pwp env G k w).1 = inl e)).
Proof.
  destruct env as [[sp |] [|] [matf |]];
    try (split; [reflexivity | split; intros _; apply exn_is_raised]).
  change (Build_runtime (Some sp) true (Some matf)) with (installed sp matf).
  destruct (store w !! G) as [g |] eqn:Hg.
  - destruct (exact_multigraph_dec (nx.type g)) as [Hty | Hty].
    + rewrite (heatkernel_rejects _ _ _ _ _ _ Hg Hty),
        (pwp_rejects _ _ _ _ _ _ Hg Hty).
      split; [reflexivity | split; intros _; apply exn_is_raised].
    + rewrite (heatkernel_run _ _ _ _ _ _ Hg Hty), (pwp_run _ _ _ _ _ _ Hg Hty).
      split; [reflexivity |]. split; intros [e He]; discriminate He.
  - rewrite (heatkernel_no_graph _ _ _ _ _ Hg), (pwp_no_graph _ _ _ _ _ Hg).
    split; [reflexivity | split; intros _; apply exn_is_raised].
Qed.

(** X3: a directed graph is used as it is and an undirected one is copied
    once.  On a graph that passes the type test, a call on a directed graph
    leaves the store as it was and asks [G] itself for the adjacency matrix;
    a call on an undirected graph adds one object to the store, the directed
    copy, at an identity that was free, and asks the copy, not [G], for the
    adjacency matrix. *)
Theorem directed_used_as_is_undirected_copied sp matf G g k w :
  store w !! G = Some g ->
  ~ exact_multigraph (nx.type g) ->
  let w' := (heatkernel (installed sp matf) G k w).2 in
  (nx.class_is_directed (nx.type g) = true ->
   store w' = store w
   /\ log w' = log w ++ [IsDirected G; AdjacencyMatrix G])
  /\ (nx.class_is_directed (nx.type g) = false ->
      exists D,
        store w !! D = None
        /\ D <> G
        /\ store w' = <[D := nx.to_directed_graph g]> (store w)
        /\ log w' = log w ++ [IsDirected G; ToDirected G D; AdjacencyMatrix D]).
Proof.
  intros Hg Hty w'. unfold w'.
  rewrite (heatkernel_run _ _ _ _ _ _ Hg Hty). cbn [snd]. unfold after_call.
  split; intros Hdir; rewrite Hdir.
  - cbn [store log]. split; [reflexivity |]. now rewrite <- app_assoc.
  - exists (fresh (dom (store w))). cbn [store log].
    pose proof (fresh_unbound (store w)) as Hfresh.
    repeat split; [assumption | congruence |].
    now rewrite <- !app_assoc.
Qed.

Lemma directed_used_as_is_undirected_copied_witness :
  let w' := (heatkernel (taylor_runtime 4) G0 f1 (world_of path4)).2 in
  (nx.class_is_directed (nx.type path4) = true ->
   store w' = store (world_of path4)
   /\ log w' = log (world_of path4) ++ [IsDirected G0; AdjacencyMatrix G0])
  /\ (nx.class_is_directed (nx.type path4) = false ->
      exists D,
        store (world_of path4) !! D = None
        /\ D <> G0
        /\ store w' = <[D := nx.to_directed_graph path4]> (store (world_of path4))
        /\ log w'
           = log (world_of path4)
               ++ [IsDirected G0; ToDirected G0 D; AdjacencyMatrix D]).
Proof.
  apply (directed_used_as_is_undirected_copied (taylor_scipy 4)
           (taylor_matfuncs 4) G0 path4 f1 (world_of path4)).
  - apply world_of_lookup.
  - intros [H | H]; discriminate H.
Defined.

(** ** Undirected graphs *)

Lemma directed_copy_is_directed g :
  nx.class_is_directed (nx.type (nx.to_directed_graph g)) = true.
Proof.
  unfold nx.to_directed_graph. cbn [nx.type].
  now destruct (nx.class_is_multigraph (nx.type g)).
Qed.

Lemma prepared_directed_copy g :
  nx.class_is_directed (nx.type g) = false ->
  prepared (nx.to_directed_graph g) = prepared g.
Proof.
  intros Hdir. unfold prepared, directed_form.
  now rewrite directed_copy_is_directed, Hdir.
Qed.

Lemma simple_copy_passes g :
  nx.class_is_multigraph (nx.type g) = false ->
  ~ exact_multigraph (nx.type (nx.to_directed_graph g)).
Proof.
  intros Hsimple. unfold nx.to_directed_graph. cbn [nx.type].
  rewrite Hsimple. intros [H | H]; discriminate H.
Qed.

(** X4: an undirected simple graph is scored as its directed copy.  For an
    undirected graph whose class permits no parallel edges, each function
    returns, without raising, and returns the same dictionaries as on the
    graph [G.to_directed()] passed in its place. *)
Theorem undirected_scored_as_directed_copy sp matf G g G' k w w' :
  store w !! G = Some g ->
  store w' !! G' = Some (nx.to_directed_graph g) ->
  nx.class_is_directed (nx.type g) = false ->
  nx.class_is_multigraph (nx.type g) = false ->
  (heatkernel (installed sp matf) G k w).1
  = (heatkernel (installed sp matf) G' k w').1
  /\ (pwp (installed sp matf) G k w).1 = (pwp (installed sp matf) G' k w').1
  /\ (exists r, (heatkernel (installed sp matf) G k w).1 = inr r)
  /\ (exists r, (pwp (installed sp matf) G k w).1 = inr r).
Proof.
  intros Hg Hg' Hdir Hsimple.
  pose proof (simple_not_exact _ Hsimple) as Hty.
  pose proof (simple_copy_passes g Hsimple) as Hty'.
  rewrite (heatkernel_run _ _ _ _ _ _ Hg Hty),
    (heatkernel_run _ _ _ _ _ _ Hg' Hty'),
    (pwp_run _ _ _ _ _ _ Hg Hty), (pwp_run _ _ _ _ _ _ Hg' Hty').
  cbn [fst]. rewrite (prepared_directed_copy g Hdir). eauto 6.
Qed.

Lemma undirected_scored_as_directed_copy_witness :
  (heatkernel (taylor_runtime 4) G0 f1 (world_of path4)).1
  = (heatkernel (taylor_runtime 4) G0 f1
       (world_of (nx.to_directed_graph path4))).1
  /\ (pwp (taylor_runtime 4) G0 f1 (world_of path4)).1
     = (pwp (taylor_runtime 4) G0 f1 (world_of (nx.to_directed_graph path4))).1
  /\ (exists r, (heatkernel (taylor_runtime 4) G0 f1 (world_of path4)).1 = inr r)
  /\ (exists r, (pwp (taylor_runtime 4) G0 f1 (world_of path4)).1 = inr r).
Proof.
  apply (undirected_scored_as_directed_copy (taylor_scipy 4)
           (taylor_matfuncs 4) G0 path4 G0 f1 (world_of path4)
           (world_of (nx.to_directed_graph path4))).
  - apply world_of_lookup.
  - apply world_of_lookup.
  - reflexivity.
  - reflexivity.
Defined.










(** ** The denominator of [pwp] *)

Lemma sum_finite_all (l : vector) s x :
  sp.sum l = Fin s -> In x l -> exists q, x = Fin q.
Proof.
  revert s. induction l as [|y l IH]; intros s Hs Hin; [destruct Hin |].
  rewrite sum_cons in Hs.
  destruct (fadd_finite_inv _ _ _ Hs) as [a [b [-> [Hb _]]]].
  destruct Hin as [<- | Hin]; [eauto | now apply (IH b)].
Qed.

Lemma Qcdiv_nonzero a b : a <> 0%Qc -> b <> 0%Qc -> (a / b)%Qc <> 0%Qc.
Proof.
  intros Ha Hb H. unfold Qcdiv in H.
  apply Qcmult_integral in H. destruct H as [H | H]; [contradiction |].
  pose proof (Qcmult_inv_r b Hb) as Hinv.
  rewrite H, Qcmult_0_r in Hinv. now apply one_ne_zero.
Qed.

Lemma sum_scaled (l : vector) s C :
  C <> 0%Qc -> sp.sum l = Fin s ->
  sp.sum (map (fun x => fdiv x (Fin C)) l) = fdiv (sp.sum l) (Fin C).
Proof.
  intros HC Hs. rewrite Hs, fdiv_finite by assumption.
  now apply (sum_vdiv l s C).
Qed.

(** Dividing a vector by a finite scalar other than zero does not change
    its shares. *)
Lemma share_scaled n raw C :
  C <> 0%Qc ->
  nonzero_finite (sp.sum (map raw (seq 0 n))) = true ->
  forall i, i < n -> share n (fun j => fdiv (raw j) (Fin C)) i = share n raw i.
Proof.
  intros HC Hsum i Hi.
  destruct (nonzero_finite_inv _ Hsum) as [S [HS HS0]].
  destruct (sum_finite_all _ S (raw i) HS) as [a Ha].
  { apply (in_map raw), in_seq. lia. }
  unfold share.
  replace (map (fun j => fdiv (raw j) (Fin C)) (seq 0 n))
    with (map (fun x => fdiv x (Fin C)) (map raw (seq 0 n)))
    by now rewrite map_map.
  rewrite (sum_scaled _ S C HC HS), HS, Ha.
  rewrite !fdiv_finite by (try assumption; now apply Qcdiv_nonzero).
  f_equal. field. split; assumption.
Qed.

Lemma scaled_scores n t C :
  C <> 0%Qc ->
  nonzero_finite (sp.sum (map (col_sum n t) (seq 0 n))) = true ->
  nonzero_finite (sp.sum (map (row_sum n t) (seq 0 n))) = true ->
  scores (tabulate n n (fun r c => fdiv (t r c) (Fin C))) n
  = scores (tabulate n n t) n.
Proof.
  intros HC Hf Hd.
  destruct (nonzero_finite_inv _ Hf) as [Sf [HSf _]].
  destruct (nonzero_finite_inv _ Hd) as [Sd [HSd _]].
  unfold scores. f_equal; do 2 f_equal.
  - rewrite !sum_axis0_col_sum, !normalized_map_seq. apply map_seq_ext. intros i Hi.
    rewrite <- (share_scaled n (col_sum n t) C HC Hf i Hi).
    apply share_ext; [| assumption]. intros c Hc.
    destruct (sum_finite_all _ Sf (col_sum n t c) HSf) as [s Hs].
    { apply (in_map (col_sum n t)), in_seq. lia. }
    unfold col_sum in *.
    replace (map (fun r => fdiv (t r c) (Fin C)) (seq 0 n))
      with (map (fun x => fdiv x (Fin C)) (map (fun r => t r c) (seq 0 n)))
      by now rewrite map_map.
    now apply (sum_scaled _ s).
  - rewrite !sum_axis1_row_sum, !normalized_map_seq. apply map_seq_ext. intros i Hi.
    rewrite <- (share_scaled n (row_sum n t) C HC Hd i Hi).
    apply share_ext; [| assumption]. intros r Hr.
    destruct (sum_finite_all _ Sd (row_sum n t r) HSd) as [s Hs].
    { apply (in_map (row_sum n t)), in_seq. lia. }
    unfold row_sum in *.
    replace (map (fun c => fdiv (t r c) (Fin C)) (seq 0 n))
      with (map (fun x => fdiv x (Fin C)) (map (fun c => t r c) (seq 0 n)))
      by now rewrite map_map.
    now apply (sum_scaled _ s).
Qed.

(** X6: the denominator of [pwp] cancels in the normalization.  When
    [expm1(k)] is finite and not zero and the two reductions of
    [expm(k At) - I] have finite sums other than zero, the dictionaries
    [pwp] returns are those built from [expm(k At) - I] itself, without the
    division by [expm1(k)]. *)
Theorem pwp_denominator_cancels sp matf G g k (c : Qc) w :
  store w !! G = Some g ->
  ~ exact_multigraph (nx.type g) ->
  expm1 sp k = Fin c ->
  c <> 0%Qc ->
  let n := length (nx.nodes g) in
  let R := sp.sub (expm matf (sp.scal k (prepared g))) (sp.eye n n) in
  nonzero_finite (sp.sum (sp.sum_axis0 R)) = true ->
  nonzero_finite (sp.sum (sp.sum_axis1 R)) = true ->
  (pwp (installed sp matf) G k w).1 = inr (scores R n).
Proof.
  intros Hg Hty Hc Hc0 n R Hf Hd.
  rewrite (pwp_scores _ _ _ _ _ _ Hg Hty). cbn [fst]. fold n. rewrite Hc.
  set (E := expm matf (tabulate n n (fun r c => fmul k (inflow g r c)))).
  assert (HR : R = tabulate n n (fun r c => fsub (entry E r c) (delta r c))).
  { unfold R. rewrite prepared_tabulate. fold n. rewrite scal_tabulate.
    change (expm matf _) with E.
    rewrite (square_as_tabulate n E) at 1
      by (apply expm_square, square_tabulate).
    unfold sp.eye. now rewrite sub_tabulate. }
  rewrite HR in Hf, Hd |- *.
  rewrite sum_axis0_col_sum in Hf. rewrite sum_axis1_row_sum in Hd.
  f_equal.
  apply (scaled_scores n (fun r c => fsub (entry E r c) (delta r c)) c Hc0 Hf Hd).
Qed.

Lemma pwp_denominator_cancels_witness :
  (pwp (taylor_runtime 4) G0 f1 (world_of di_path3)).1
  = inr (scores
           (sp.sub (expm (taylor_matfuncs 4) (sp.scal f1 (prepared di_path3)))
                   (sp.eye 3 3))
           3).
Proof.
  apply (pwp_denominator_cancels (taylor_scipy 4) (taylor_matfuncs 4) G0
           di_path3 f1 (Q2Qc (41 # 24)) (world_of di_path3)).
  - apply world_of_lookup.
  - intros [H | H]; discriminate H.
  - apply float_eqb_eq. vm_compute. reflexivity.
  - discriminate.
  - vm_compute. reflexivity.
  - vm_compute. reflexivity.
Defined.

(** ** Scores as probabilities *)

Lemma nonnegb_inv x : nonnegb x = true -> exists q : Qc, x = Fin q /\ (0 <= q)%Qc.
Proof.
  destruct x as [q | | |]; simpl; try discriminate.
  intros H. exists q. split; [reflexivity |]. now apply Qle_bool_iff in H.
Qed.

Lemma nonneg_sum (l : vector) :
  (forall x, In x l -> exists q : Qc, x = Fin q /\ (0 <= q)%Qc) ->
  exists s : Qc,
    sp.sum l = Fin s /\ (0 <= s)%Qc
    /\ forall x, In x l -> exists q : Qc, x = Fin q /\ (0 <= q)%Qc /\ (q <= s)%Qc.
Proof.
  induction l as [|y l IH]; intros Hl.
  - exists 0%Qc. repeat split; [apply Qcle_refl | intros x []].
  - destruct (Hl y (or_introl eq_refl)) as [a [-> Ha]].
    destruct IH as [s [Hs [Hs0 Hin]]].
    { intros x Hx. apply Hl. now right. }
    exists (a + s)%Qc. rewrite sum_cons, Hs. split; [reflexivity |].
    assert (Has : (a <= a + s)%Qc).
    { rewrite <- (Qcplus_0_r a) at 1. apply Qcplus_le_compat;
        [apply Qcle_refl | assumption]. }
    assert (Hsa : (s <= a + s)%Qc).
    { rewrite <- (Qcplus_0_l s) at 1. apply Qcplus_le_compat;
        [assumption | apply Qcle_refl]. }
    split; [now apply (Qcle_trans _ a) |].
    intros x [<- | Hx]; [eauto |].
    destruct (Hin x Hx) as [q [-> [Hq Hqs]]].
    exists q. repeat split; [assumption | now apply (Qcle_trans _ s)].
Qed.

Lemma Qcinv_nonneg (s : Qc) : (0 <= s)%Qc -> (0 <= / s)%Qc.
Proof.
  unfold Qcle, Qcinv. cbn [this Q2Qc]. rewrite !Qred_correct.
  apply Qinv_le_0_compat.
Qed.

Lemma share_probability n raw :
  (forall i, i < n -> exists q : Qc, raw i = Fin q /\ (0 <= q)%Qc) ->
  nonzero_finite (sp.sum (map raw (seq 0 n))) = true ->
  forall i, i < n -> probability (share n raw i).
Proof.
  intros Hraw Hsum i Hi.
  destruct (nonneg_sum (map raw (seq 0 n))) as [s [Hs [Hs0 Hin]]].
  { intros x Hx. apply in_map_iff in Hx. destruct Hx as [j [<- Hj]].
    apply Hraw. apply in_seq in Hj. lia. }
  destruct (Hin (raw i)) as [a [Ha [Ha0 Has]]].
  { apply (in_map raw), in_seq. lia. }
  destruct (nonzero_finite_inv _ Hsum) as [s' [Hs' Hs'0]].
  rewrite Hs in Hs'. injection Hs' as <-.
  unfold share. rewrite Hs, Ha, fdiv_finite by assumption.
  exists (a / s)%Qc. split; [reflexivity |]. unfold Qcdiv.
  pose proof (Qcinv_nonneg s Hs0) as Hinv. split.
  - rewrite <- (Qcmult_0_l (/ s)). now apply Qcmult_le_compat_r.
  - rewrite <- (Qcmult_inv_r s Hs'0). now apply Qcmult_le_compat_r.
Qed.

Lemma nonneg_entry n T r c :
  square n T -> nonneg_matrix T = true -> r < n -> c < n ->
  exists q : Qc, entry T r c = Fin q /\ (0 <= q)%Qc.
Proof.
  intros [Hlen Hrows] HT Hr Hc. apply nonnegb_inv.
  unfold nonneg_matrix in HT. rewrite forallb_forall in HT.
  assert (Hrow : In (nth r T []) T) by (apply nth_In; lia).
  specialize (HT _ Hrow). rewrite forallb_forall in HT. apply HT.
  unfold entry. apply nth_In.
  rewrite Forall_forall in Hrows.
  rewrite (Hrows (nth r T [])); [assumption | now apply list_elem_of_In].
Qed.

(** The scores of a square transform with finite entries that are not
    negative and reductions with sums other than zero lie in [[0, 1]]. *)
Lemma scores_probabilities n T :
  square n T ->
  nonneg_matrix T = true ->
  nonzero_finite (sp.sum (sp.sum_axis0 T)) = true ->
  nonzero_finite (sp.sum (sp.sum_axis1 T)) = true ->
  (forall key v, influences (scores T n) !! key = Some v -> probability v)
  /\ (forall key v, dependences (scores T n) !! key = Some v -> probability v).
Proof.
  intros Hsq Hnn Hf Hd.
  pose proof (nonneg_entry n T) as Hentry.
  rewrite (square_as_tabulate n T Hsq) in Hf, Hd |- *.
  rewrite sum_axis0_col_sum in Hf. rewrite sum_axis1_row_sum in Hd.
  assert (Hcol : forall c, c < n ->
            exists q : Qc, col_sum n (entry T) c = Fin q /\ (0 <= q)%Qc).
  { intros c Hc. destruct (nonneg_sum (map (fun r => entry T r c) (seq 0 n)))
      as [s [Hs [Hs0 _]]]; [| eauto].
    intros x Hx. apply in_map_iff in Hx. destruct Hx as [r [<- Hr]].
    apply in_seq in Hr. apply Hentry; try assumption; lia. }
  assert (Hrow : forall r, r < n ->
            exists q : Qc, row_sum n (entry T) r = Fin q /\ (0 <= q)%Qc).
  { intros r Hr. destruct (nonneg_sum (map (fun c => entry T r c) (seq 0 n)))
      as [s [Hs [Hs0 _]]]; [| eauto].
    intros x Hx. apply in_map_iff in Hx. destruct Hx as [c [<- Hc]].
    apply in_seq in Hc. apply Hentry; try assumption; lia. }
  split; intros key v Hv.
  - destruct (indexed_by_inv _ _ _ _ _ (influences_scores n (entry T)) Hv)
      as [i [Hi [_ ->]]].
    now apply share_probability.
  - destruct (indexed_by_inv _ _ _ _ _ (dependences_scores n (entry T)) Hv)
      as [i [Hi [_ ->]]].
    now apply share_probability.
Qed.

(** X7: the scores are probabilities.  For a graph that passes the type
    test, when every entry of the transform is finite and not negative and
    the two raw reduction vectors have sums other than zero, every value of
    the [influences] and of the [dependences] dictionary lies between 0 and
    1, for [heatkernel] and for [pwp]. *)
Theorem scores_are_probabilities sp matf G g k w :
  store w !! G = Some g ->
  ~ exact_multigraph (nx.type g) ->
  let Th := heat_transform matf (prepared g) k in
  let Tp := pwp_transform sp matf (prepared g) k in
  (nonneg_matrix Th = true ->
   nonzero_finite (sp.sum (sp.sum_axis0 Th)) = true ->
   nonzero_finite (sp.sum (sp.sum_axis1 Th)) = true ->
   exists r,
     (heatkernel (installed sp matf) G k w).1 = inr r
     /\ (forall key v, influences r !! key = Some v -> probability v)
     /\ (forall key v, dependences r !! key = Some v -> probability v))
  /\ (nonneg_matrix Tp = true ->
      nonzero_finite (sp.sum (sp.sum_axis0 Tp)) = true ->
      nonzero_finite (sp.sum (sp.sum_axis1 Tp)) = true ->
      exists r,
        (pwp (installed sp matf) G k w).1 = inr r
        /\ (forall key v, influences r !! key = Some v -> probability v)
        /\ (forall key v, dependences r !! key = Some v -> probability v)).
Proof.
  intros Hg Hty Th Tp. split; intros Hnn Hf Hd; eexists.
  - rewrite (heatkernel_run _ _ _ _ _ _ Hg Hty). cbn [fst].
    split; [reflexivity |]. rewrite prepared_size.
    apply scores_probabilities; try assumption. apply heat_transform_square.
  - rewrite (pwp_run _ _ _ _ _ _ Hg Hty). cbn [fst].
    split; [reflexivity |]. rewrite prepared_size.
    apply scores_probabilities; try assumption. apply pwp_transform_square.
Qed.

Lemma scores_are_probabilities_witness :
  (exists r,
      (heatkernel (taylor_runtime 4) G0 f1 (world_of di_path3)).1 = inr r
      /\ (forall key v, influences r !! key = Some v -> probability v)
      /\ (forall key v, dependences r !! key = Some v -> probability v))
  /\ (exists r,
         (pwp (taylor_runtime 4) G0 f1 (world_of di_path3)).1 = inr r
         /\ (forall key v, influences r !! key = Some v -> probability v)
         /\ (forall key v, dependences r !! key = Some v -> probability v)).
Proof.
  destruct (scores_are_probabilities (taylor_scipy 4) (taylor_matfuncs 4) G0
              di_path3 f1 (world_of di_path3)) as [Hheat Hpwp].
  - apply world_of_lookup.
  - intros [H | H]; discriminate H.
  - split.
    + apply Hheat; vm_compute; reflexivity.
    + apply Hpwp; vm_compute; reflexivity.
Defined.

(** ** The test fixture *)

(** X8: the fixture guards the first import only.  [setup_module] returns
    exactly when [nose] and [scipy] can be imported, and it raises
    [SkipTest] exactly when [nose] can and [scipy] cannot.  After it has
    returned, neither function raises the [ImportError] that names SciPy
    itself: an [ImportError] of [heatkernel] or [pwp] then names
    [scipy.linalg] or [scipy.linalg.matfuncs]. *)
Theorem setup_module_guards_scipy nose env :
  (setup_module nose env = inr tt <-> nose = true /\ scipy env <> None)
  /\ (setup_module nose env = inl (SkipTest "SciPy not available")
      <-> nose = true /\ scipy env = None)
  /\ (setup_module nose env = inr tt ->
      forall G k w msg,
        ((heatkernel env G k w).1 = inl (ImportError msg) ->
         msg = "heatkernel() requires scipy.linalg: http://scipy.org"
         \/ msg = "heatkernel() requires scipy.linalg.matfuncs: http://scipy.org")
        /\ ((pwp env G k w).1 = inl (ImportError msg) ->
            msg = "pwp() requires scipy.linalg: http://scipy.org"
            \/ msg = "pwp() requires scipy.linalg.matfuncs: http://scipy.org")).
Proof.
  unfold setup_module. split; [| split].
  - destruct nose, (scipy env); intuition congruence.
  - destruct nose, (scipy env); intuition congruence.
  - destruct nose; [| discriminate].
    destruct env as [[sp |] [|] [matf |]]; cbn [scipy]; try discriminate;
      intros _ G k w msg.
    + change (Build_runtime (Some sp) true (Some matf)) with (installed sp matf).
      destruct (store w !! G) as [g |] eqn:Hg.
      * destruct (exact_multigraph_dec (nx.type g)) as [Hty | Hty].
        -- rewrite (heatkernel_rejects _ _ _ _ _ _ Hg Hty),
             (pwp_rejects _ _ _ _ _ _ Hg Hty).
           split; intros H; discriminate H.
        -- rewrite (heatkernel_run _ _ _ _ _ _ Hg Hty),
             (pwp_run _ _ _ _ _ _ Hg Hty).
           split; intros H; discriminate H.
      * rewrite (heatkernel_no_graph _ _ _ _ _ Hg), (pwp_no_graph _ _ _ _ _ Hg).
        split; intros H; discriminate H.
    + split; intros [= <-]; now right.
    + split; intros [= <-]; now left.
    + split; intros [= <-]; now left.
Qed.
